(** * Cloud Scheduler client transports: a shallow embedding

    The development embeds two source files of the client library:

    - [transports/base.py]: the abstract [CloudSchedulerTransport], its
      constructor and [_prep_wrapped_messages];
    - [transports/grpc_asyncio.py]: [CloudSchedulerGrpcAsyncIOTransport],
      its constructor, [create_channel], the [grpc_channel] property and
      the eight stub properties.

    The asynchronous transport is the one of the [scheduler_v1] package
    and the base class the one of [scheduler_v1beta1]; the two generated
    packages have the same base transport up to the message modules they
    import, and the development composes the two files.

    Python objects are mutable and shared, so the embedding threads an
    explicit state through a small state-and-exception monad.  The state
    holds the instance under construction or use ([Self]) and everything
    that outlives a single instance ([World]): the class attribute
    [_stubs], the multicallables created by [unary_unary], and a log of
    the calls made to external collaborators (google.auth, grpc,
    google.api_core). *)

From Stdlib Require Import QArith Lqa Ascii String.
From stdpp Require Import gmap strings list fin_maps.

Open Scope string_scope.
Open Scope list_scope.

(** ** Values *)

(** A channel object.  The caller may hand one in; the library may obtain
    one from [grpc_helpers_async.create_channel]. *)
Inductive Channel :=
| SuppliedChannel (n : nat)
| CreatedChannel (n : nat).

Inductive SslCredentials :=
| SslFromCertificate (cert key : string)   (* grpc.ssl_channel_credentials(cert, key) *)
| SslApplicationDefault.                   (* SslCredentials().ssl_credentials *)

(** Credentials objects, by provenance. *)
Inductive Credentials :=
| CallerCredentials (n : nat)
| FileCredentials (file : string) (scopes : option (list string))
                  (quota_project_id : option string)
| AmbientCredentials (scopes : option (list string))
                     (quota_project_id : option string).

(** What the [credentials] variable can hold: [None], the literal [False]
    assigned in the channel branch, or a credentials object. *)
Inductive PyCredentials :=
| PyNone
| PyFalse
| PyObject (c : Credentials).

(** The [client_cert_source] callback, by what calling it does. *)
Inductive CertSource :=
| CertSourceReturns (cert key : string)
| CertSourceRaises.

(** Python truthiness of the values the constructors test. *)
Definition truthy_credentials (c : PyCredentials) : bool :=
  match c with PyObject _ => true | _ => false end.

Definition truthy_str (s : option string) : bool :=
  match s with
  | Some EmptyString => false
  | Some _ => true
  | None => false
  end.

Definition truthy_seq {A} (s : option (list A)) : bool :=
  match s with
  | Some (_ :: _) => true
  | _ => false
  end.

(** [":" in host] *)
Fixpoint contains_colon (s : string) : bool :=
  match s with
  | EmptyString => false
  | String c s' => if Ascii.eqb c ":"%char then true else contains_colon s'
  end.

(** Exception classes of google.api_core.exceptions that an RPC can fail
    with, one per status code.  None of them derives from another one of
    them, so [isinstance] on these classes is equality. *)
Inductive ApiException :=
| Cancelled | Unknown | InvalidArgument | DeadlineExceeded | NotFound
| AlreadyExists | PermissionDenied | ResourceExhausted | FailedPrecondition
| Aborted | OutOfRange | MethodNotImplemented | InternalServerError
| ServiceUnavailable | DataLoss | Unauthenticated.

#[global] Instance ApiException_eq_dec : EqDecision ApiException.
Proof. solve_decision. Defined.

(** [retries.if_exception_type] applied to exception classes is kept as the tuple of
    classes it closes over; [if_exception_type_holds] applies it. *)
Definition if_exception_type (exception_types : list ApiException)
  : list ApiException := exception_types.

Definition if_exception_type_holds (predicate : list ApiException)
                                   (exception : ApiException) : bool :=
  existsb (fun ty => bool_decide (exception = ty)) predicate.

(** [retries.Retry(initial=, maximum=, multiplier=, predicate=)] *)
Record Retry := {
  initial : Q;
  maximum : Q;
  multiplier : Q;
  predicate : list ApiException;
}.

(** [gapic_v1.client_info.ClientInfo(gapic_version=...)] or [ClientInfo()]. *)
Record ClientInfo := { gapic_version : option string }.

(** The callable returned by [gapic_v1.method.wrap_method]: it records the
    function it wraps and the defaults it was given. *)
Record WrappedMethod := {
  func : nat;
  default_retry : option Retry;
  default_timeout : option Q;
  wrapped_client_info : ClientInfo;
}.

(** A function reference passed as serializer or deserializer, such as
    [cloudscheduler.ListJobsRequest.serialize].  The module aliases [job]
    and [gcs_job] name one module and are both written [job]. *)
Inductive CodecKind := serialize | deserialize | FromString.

Record Codec := { codec_message : string; codec_kind : CodecKind }.

(** The multicallable returned by [channel.unary_unary]. *)
Record Stub := {
  stub_channel : Channel;
  stub_path : string;
  request_serializer : Codec;
  response_deserializer : Codec;
}.

(** ** State *)

Inductive ExternalCall :=
| CallCreateChannel (host : string) (credentials : PyCredentials)
                    (credentials_file : option string)
                    (ssl_credentials : option SslCredentials)
                    (scopes : option (list string))
                    (quota_project_id : option string)
| CallLoadCredentialsFromFile (file : string) (scopes : option (list string))
                              (quota_project_id : option string)
| CallAuthDefault (scopes : option (list string))
                  (quota_project_id : option string)
| CallClientCertSource
| CallSslCredentials
| CallUnaryUnary (self : nat) (channel : Channel) (path : string) (stub : nat).

Inductive Exception :=
| DuplicateCredentialArgs (message : string)
| NotImplementedError
| AttributeError (name : string)
| KeyError (key : string)
| ExternalError (call : ExternalCall).

(** Whether each external collaborator returns or raises. *)
Record Env := {
  load_credentials_from_file_ok : string -> bool;
  auth_default_ok : bool;
  create_channel_ok : string -> bool;
  ssl_credentials_ok : bool;
}.

(** What outlives one instance.  [cls_stubs] is the dictionary bound to
    [_stubs] in the class body of [CloudSchedulerGrpcAsyncIOTransport]:
    one object, reached through every instance that has no attribute
    [_stubs] of its own. *)
Record World := {
  cls_stubs : gmap string nat;
  stubs_heap : list Stub;
  channels_created : nat;
  log : list ExternalCall;
  _client_info : ClientInfo;
}.

(** The attributes of one transport instance; [None] is an attribute
    that has not been assigned.  [oid] is the identity of the object. *)
Record Self := {
  oid : nat;
  _grpc_channel : option Channel;
  _host : option string;
  _credentials : option PyCredentials;
  _wrapped_methods : option (gmap nat WrappedMethod);
  _stubs : option (gmap string nat);
}.

Definition new_object (o : nat) : Self :=
  {| oid := o; _grpc_channel := None; _host := None; _credentials := None;
     _wrapped_methods := None; _stubs := None |}.

Record State := { world : World; self : Self }.

(** ** The monad *)

Inductive outcome (A : Type) :=
| Return (a : A)
| Raise (e : Exception).
Arguments Return {A} a.
Arguments Raise {A} e.

Definition M (A : Type) : Type := State -> outcome A * State.

#[global] Instance M_ret : MRet M := fun A a st => (Return a, st).

#[global] Instance M_bind : MBind M := fun A B f m st =>
  match m st with
  | (Return a, st') => f a st'
  | (Raise e, st') => (Raise e, st')
  end.

Definition raise {A} (e : Exception) : M A := fun st => (Raise e, st).
Definition get_self : M Self := fun st => (Return (self st), st).
Definition get_world : M World := fun st => (Return (world st), st).
Definition put_self (s : Self) : M unit :=
  fun st => (Return tt, {| world := world st; self := s |}).
Definition put_world (w : World) : M unit :=
  fun st => (Return tt, {| world := w; self := self st |}).

Definition record (c : ExternalCall) : M unit :=
  w ← get_world;
  put_world {| cls_stubs := cls_stubs w; stubs_heap := stubs_heap w;
               channels_created := channels_created w;
               log := log w ++ [c]; _client_info := _client_info w |}.

(** Attribute reads and writes on [self]. *)
Definition getattr {A} (name : string) (field : Self -> option A) : M A :=
  s ← get_self;
  match field s with
  | Some v => mret v
  | None => raise (AttributeError name)
  end.

Definition set_grpc_channel (c : Channel) : M unit :=
  s ← get_self;
  put_self {| oid := oid s; _grpc_channel := Some c; _host := _host s;
              _credentials := _credentials s;
              _wrapped_methods := _wrapped_methods s; _stubs := _stubs s |}.

Definition set_host (h : string) : M unit :=
  s ← get_self;
  put_self {| oid := oid s; _grpc_channel := _grpc_channel s; _host := Some h;
              _credentials := _credentials s;
              _wrapped_methods := _wrapped_methods s; _stubs := _stubs s |}.

Definition set_credentials (c : PyCredentials) : M unit :=
  s ← get_self;
  put_self {| oid := oid s; _grpc_channel := _grpc_channel s; _host := _host s;
              _credentials := Some c;
              _wrapped_methods := _wrapped_methods s; _stubs := _stubs s |}.

Definition set_wrapped_methods (d : gmap nat WrappedMethod) : M unit :=
  s ← get_self;
  put_self {| oid := oid s; _grpc_channel := _grpc_channel s; _host := _host s;
              _credentials := _credentials s;
              _wrapped_methods := Some d; _stubs := _stubs s |}.

(** [self._stubs = d] binds the instance attribute. *)
Definition set_stubs (d : gmap string nat) : M unit :=
  s ← get_self;
  put_self {| oid := oid s; _grpc_channel := _grpc_channel s; _host := _host s;
              _credentials := _credentials s;
              _wrapped_methods := _wrapped_methods s; _stubs := Some d |}.

(** [self._stubs] as an expression: the instance attribute when there is
    one, the class attribute otherwise. *)
Definition read_stubs : M (gmap string nat) :=
  s ← get_self;
  match _stubs s with
  | Some d => mret d
  | None => w ← get_world; mret (cls_stubs w)
  end.

(** [self._stubs[key] = v] mutates whichever dictionary [self._stubs]
    denotes. *)
Definition setitem_stubs (key : string) (v : nat) : M unit :=
  s ← get_self;
  match _stubs s with
  | Some d => set_stubs (<[key := v]> d)
  | None =>
      w ← get_world;
      put_world {| cls_stubs := <[key := v]> (cls_stubs w);
                   stubs_heap := stubs_heap w;
                   channels_created := channels_created w;
                   log := log w; _client_info := _client_info w |}
  end.

(** ** External collaborators

    Each call is appended to the log; whether it returns is decided by
    the environment. *)

Section External.
Context (env : Env).

  (** [auth.load_credentials_from_file(file, scopes=, quota_project_id=)] *)
Definition load_credentials_from_file
      (file : string) (scopes : option (list string))
      (quota_project_id : option string) : M PyCredentials :=
    record (CallLoadCredentialsFromFile file scopes quota_project_id);;
    if load_credentials_from_file_ok env file
    then mret (PyObject (FileCredentials file scopes quota_project_id))
    else raise (ExternalError
                  (CallLoadCredentialsFromFile file scopes quota_project_id)).

  (** [auth.default(scopes=, quota_project_id=)] *)
Definition auth_default
      (scopes : option (list string)) (quota_project_id : option string)
      : M PyCredentials :=
    record (CallAuthDefault scopes quota_project_id);;
    if auth_default_ok env
    then mret (PyObject (AmbientCredentials scopes quota_project_id))
    else raise (ExternalError (CallAuthDefault scopes quota_project_id)).

  (** [grpc_helpers_async.create_channel(host, credentials=, ...)] *)
Definition grpc_helpers_async_create_channel
      (host : string) (credentials : PyCredentials)
      (credentials_file : option string) (scopes : option (list string))
      (quota_project_id : option string)
      (ssl_credentials : option SslCredentials) : M Channel :=
    let call := CallCreateChannel host credentials credentials_file
                                  ssl_credentials scopes quota_project_id in
    record call;;
    if create_channel_ok env host
    then
      w ← get_world;
      put_world {| cls_stubs := cls_stubs w; stubs_heap := stubs_heap w;
                   channels_created := S (channels_created w);
                   log := log w; _client_info := _client_info w |};;
      mret (CreatedChannel (channels_created w))
    else raise (ExternalError call).

  (** [client_cert_source()] followed by [grpc.ssl_channel_credentials]. *)
Definition call_client_cert_source (cb : CertSource) : M SslCredentials :=
    record CallClientCertSource;;
    match cb with
    | CertSourceReturns cert key => mret (SslFromCertificate cert key)
    | CertSourceRaises => raise (ExternalError CallClientCertSource)
    end.

  (** [SslCredentials().ssl_credentials] *)
Definition application_default_ssl_credentials : M SslCredentials :=
    record CallSslCredentials;;
    if ssl_credentials_ok env
    then mret SslApplicationDefault
    else raise (ExternalError CallSslCredentials).
End External.

(** [channel.unary_unary(path, request_serializer=, response_deserializer=)]
    makes a new multicallable on every call. *)
Definition unary_unary (channel : Channel) (path : string)
    (request_serializer response_deserializer : Codec) : M nat :=
  w ← get_world;
  s ← get_self;
  let r := length (stubs_heap w) in
  put_world {| cls_stubs := cls_stubs w;
               stubs_heap := stubs_heap w ++
                 [{| stub_channel := channel; stub_path := path;
                     request_serializer := request_serializer;
                     response_deserializer := response_deserializer |}];
               channels_created := channels_created w;
               log := log w ++ [CallUnaryUnary (oid s) channel path r];
               _client_info := _client_info w |};;
  mret r.

(** [gapic_v1.method.wrap_method(func, default_retry=, default_timeout=,
    client_info=)] *)
Definition wrap_method (func : nat) (default_retry : option Retry)
    (default_timeout : option Q) (client_info : ClientInfo) : WrappedMethod :=
  {| func := func; default_retry := default_retry;
     default_timeout := default_timeout;
     wrapped_client_info := client_info |}.

(** [x or y] on optional sequences. *)
Definition seq_or {A} (x : option (list A)) (y : list A) : option (list A) :=
  if truthy_seq x then x else Some y.

(** A dictionary display [{k1: v1, k2: v2, ...}]: the items are evaluated
    from left to right and stored in that order, a later item replacing
    an earlier one with the same key. *)
Fixpoint dict_display `{Countable K} {V} (items : list (M (K * V)))
    (acc : gmap K V) : M (gmap K V) :=
  match items with
  | [] => mret acc
  | i :: items => kv ← i; dict_display items (<[kv.1 := kv.2]> acc)
  end.

(** ** transports/base.py *)

Module CloudSchedulerTransport.

Definition AUTH_SCOPES : list string :=
  ["https://www.googleapis.com/auth/cloud-platform"].

(** The eight properties every transport provides. *)
Class Properties := {
  list_jobs : M nat;
  get_job : M nat;
  create_job : M nat;
  update_job : M nat;
  delete_job : M nat;
  pause_job : M nat;
  resume_job : M nat;
  run_job : M nat;
}.

(** In the abstract class each of them raises. *)
Definition abstract : Properties :=
  {| list_jobs := raise NotImplementedError;
     get_job := raise NotImplementedError;
     create_job := raise NotImplementedError;
     update_job := raise NotImplementedError;
     delete_job := raise NotImplementedError;
     pause_job := raise NotImplementedError;
     resume_job := raise NotImplementedError;
     run_job := raise NotImplementedError |}.

Section Methods.
Context (env : Env) `{Properties}.

(** One [key: value] item of the dictionary display: the key is
    evaluated, then the arguments of [wrap_method]. *)
Definition item (property : M nat) (default_retry : option Retry)
    (default_timeout : option Q) : M (nat * WrappedMethod) :=
  key ← property;
  func ← property;
  w ← get_world;
  mret (key, wrap_method func default_retry default_timeout (_client_info w)).

Definition _prep_wrapped_messages : M unit :=
  d ← dict_display [
    item list_jobs
      (Some {| initial := 0.1; maximum := 60.0; multiplier := 1.3;
               predicate := if_exception_type
                              [ServiceUnavailable; DeadlineExceeded] |})
      (Some 600.0%Q);
    item get_job
      (Some {| initial := 0.1; maximum := 60.0; multiplier := 1.3;
               predicate := if_exception_type
                              [ServiceUnavailable; DeadlineExceeded] |})
      (Some 600.0%Q);
    item create_job None (Some 600.0%Q);
    item update_job None (Some 600.0%Q);
    item delete_job
      (Some {| initial := 0.1; maximum := 60.0; multiplier := 1.3;
               predicate := if_exception_type
                              [ServiceUnavailable; DeadlineExceeded] |})
      (Some 600.0%Q);
    item pause_job
      (Some {| initial := 0.1; maximum := 60.0; multiplier := 1.3;
               predicate := if_exception_type
                              [ServiceUnavailable; DeadlineExceeded] |})
      (Some 600.0%Q);
    item resume_job
      (Some {| initial := 0.1; maximum := 60.0; multiplier := 1.3;
               predicate := if_exception_type
                              [ServiceUnavailable; DeadlineExceeded] |})
      (Some 600.0%Q);
    item run_job None (Some 600.0%Q)
  ] ∅;
  set_wrapped_methods d.

Definition __init__ (host : string) (credentials : PyCredentials)
    (credentials_file : option string) (scopes : option (list string))
    (quota_project_id : option string) : M unit :=
  let host := if contains_colon host then host else host +:+ ":443" in
  set_host host;;
  if truthy_credentials credentials && truthy_str credentials_file
  then raise (DuplicateCredentialArgs
                "'credentials_file' and 'credentials' are mutually exclusive")
  else
    credentials ←
      match credentials_file with
      | Some file => load_credentials_from_file env file scopes quota_project_id
      | None =>
          match credentials with
          | PyNone => auth_default env scopes quota_project_id
          | _ => mret credentials
          end
      end;
    set_credentials credentials;;
    _prep_wrapped_messages.
End Methods.

End CloudSchedulerTransport.

(** ** transports/grpc_asyncio.py *)

Module CloudSchedulerGrpcAsyncIOTransport.

Definition AUTH_SCOPES := CloudSchedulerTransport.AUTH_SCOPES.

(** The default of the [host] parameter. *)
Definition default_host : string := "cloudscheduler.googleapis.com".

Section Methods.
Context (env : Env).

(** The class method [create_channel]; [ssl_credentials] stands for
    the keyword arguments passed on. *)
Definition create_channel (host : string) (credentials : PyCredentials)
    (credentials_file : option string) (scopes : option (list string))
    (quota_project_id : option string)
    (ssl_credentials : option SslCredentials) : M Channel :=
  let scopes := seq_or scopes AUTH_SCOPES in
  grpc_helpers_async_create_channel env host credentials credentials_file
    scopes quota_project_id ssl_credentials.

(** The property [grpc_channel]. *)
Definition grpc_channel : M Channel :=
  s ← get_self;
  match _grpc_channel s with
  | None =>
      host ← getattr "_host" _host;
      credentials ← getattr "_credentials" _credentials;
      channel ← create_channel host credentials None None None None;
      set_grpc_channel channel
  | Some _ => mret tt
  end;;
  getattr "_grpc_channel" _grpc_channel.

(** The body shared by the eight stub properties, which differ in
    their three literals and the dictionary key. *)
Definition stub_property (key path : string)
    (request_serializer response_deserializer : Codec) : M nat :=
  stubs ← read_stubs;
  match stubs !! key with
  | None =>
      channel ← grpc_channel;
      stub ← unary_unary channel path request_serializer
                         response_deserializer;
      setitem_stubs key stub
  | Some _ => mret tt
  end;;
  stubs ← read_stubs;
  match stubs !! key with
  | Some stub => mret stub
  | None => raise (KeyError key)
  end.

Definition list_jobs : M nat :=
  stub_property "list_jobs"
    "/google.cloud.scheduler.v1.CloudScheduler/ListJobs"
    {| codec_message := "cloudscheduler.ListJobsRequest";
       codec_kind := serialize |}
    {| codec_message := "cloudscheduler.ListJobsResponse";
       codec_kind := deserialize |}.

Definition get_job : M nat :=
  stub_property "get_job"
    "/google.cloud.scheduler.v1.CloudScheduler/GetJob"
    {| codec_message := "cloudscheduler.GetJobRequest";
       codec_kind := serialize |}
    {| codec_message := "job.Job"; codec_kind := deserialize |}.

Definition create_job : M nat :=
  stub_property "create_job"
    "/google.cloud.scheduler.v1.CloudScheduler/CreateJob"
    {| codec_message := "cloudscheduler.CreateJobRequest";
       codec_kind := serialize |}
    {| codec_message := "job.Job"; codec_kind := deserialize |}.

Definition update_job : M nat :=
  stub_property "update_job"
    "/google.cloud.scheduler.v1.CloudScheduler/UpdateJob"
    {| codec_message := "cloudscheduler.UpdateJobRequest";
       codec_kind := serialize |}
    {| codec_message := "job.Job"; codec_kind := deserialize |}.

Definition delete_job : M nat :=
  stub_property "delete_job"
    "/google.cloud.scheduler.v1.CloudScheduler/DeleteJob"
    {| codec_message := "cloudscheduler.DeleteJobRequest";
       codec_kind := serialize |}
    {| codec_message := "empty.Empty"; codec_kind := FromString |}.

Definition pause_job : M nat :=
  stub_property "pause_job"
    "/google.cloud.scheduler.v1.CloudScheduler/PauseJob"
    {| codec_message := "cloudscheduler.PauseJobRequest";
       codec_kind := serialize |}
    {| codec_message := "job.Job"; codec_kind := deserialize |}.

Definition resume_job : M nat :=
  stub_property "resume_job"
    "/google.cloud.scheduler.v1.CloudScheduler/ResumeJob"
    {| codec_message := "cloudscheduler.ResumeJobRequest";
       codec_kind := serialize |}
    {| codec_message := "job.Job"; codec_kind := deserialize |}.

Definition run_job : M nat :=
  stub_property "run_job"
    "/google.cloud.scheduler.v1.CloudScheduler/RunJob"
    {| codec_message := "cloudscheduler.RunJobRequest";
       codec_kind := serialize |}
    {| codec_message := "job.Job"; codec_kind := deserialize |}.

(** The subclass overrides all eight properties. *)
#[export] Instance properties : CloudSchedulerTransport.Properties :=
  {| CloudSchedulerTransport.list_jobs := list_jobs;
     CloudSchedulerTransport.get_job := get_job;
     CloudSchedulerTransport.create_job := create_job;
     CloudSchedulerTransport.update_job := update_job;
     CloudSchedulerTransport.delete_job := delete_job;
     CloudSchedulerTransport.pause_job := pause_job;
     CloudSchedulerTransport.resume_job := resume_job;
     CloudSchedulerTransport.run_job := run_job |}.

Definition __init__ (host : string) (credentials : PyCredentials)
    (credentials_file : option string) (scopes : option (list string))
    (channel : option Channel) (api_mtls_endpoint : option string)
    (client_cert_source : option CertSource)
    (quota_project_id : option string) : M unit :=
  '(host, credentials) ←
    match channel with
    | Some channel =>
        set_grpc_channel channel;;
        mret (host, PyFalse)
    | None =>
        if truthy_str api_mtls_endpoint
        then
          let endpoint := default "" api_mtls_endpoint in
          let host := if contains_colon endpoint then endpoint
                      else endpoint +:+ ":443" in
          ssl_credentials ←
            match client_cert_source with
            | Some cb => call_client_cert_source cb
            | None => application_default_ssl_credentials env
            end;
          channel ← create_channel host credentials credentials_file
                      (seq_or scopes AUTH_SCOPES) quota_project_id
                      (Some ssl_credentials);
          set_grpc_channel channel;;
          mret (host, credentials)
        else mret (host, credentials)
    end;
  CloudSchedulerTransport.__init__ env host credentials credentials_file
    (seq_or scopes AUTH_SCOPES) quota_project_id;;
  set_stubs ∅.
End Methods.

End CloudSchedulerGrpcAsyncIOTransport.

(** ** Programs that use the transport

    A client program constructs transports and reads their properties.
    [Program] holds the shared world and the instances constructed so
    far, by object identity. *)

Import CloudSchedulerGrpcAsyncIOTransport.

Inductive Method :=
| ListJobs | GetJob | CreateJob | UpdateJob
| DeleteJob | PauseJob | ResumeJob | RunJob.

#[global] Instance Method_eq_dec : EqDecision Method.
Proof. solve_decision. Defined.

(** The property of the transport that serves a method. *)
Definition property (env : Env) (m : Method) : M nat :=
  match m with
  | ListJobs => list_jobs env
  | GetJob => get_job env
  | CreateJob => create_job env
  | UpdateJob => update_job env
  | DeleteJob => delete_job env
  | PauseJob => pause_job env
  | ResumeJob => resume_job env
  | RunJob => run_job env
  end.

(** The keyword arguments of the constructor. *)
Record InitArgs := {
  host : string;
  credentials : PyCredentials;
  credentials_file : option string;
  scopes : option (list string);
  channel : option Channel;
  api_mtls_endpoint : option string;
  client_cert_source : option CertSource;
  quota_project_id : option string;
}.

Record Program := {
  globals : World;
  instances : gmap nat Self;
  next_oid : nat;
}.

(** [__init__] applied to the keyword arguments. *)
Definition init (env : Env) (args : InitArgs) : M unit :=
  __init__ env (host args) (credentials args) (credentials_file args)
    (scopes args) (channel args) (api_mtls_endpoint args)
    (client_cert_source args) (quota_project_id args).

(** Calling the class [CloudSchedulerGrpcAsyncIOTransport]: a new object is
    allocated and initialised; the caller gets it only if [__init__]
    returns.  Effects on the world stay either way. *)
Definition construct (env : Env) (args : InitArgs) (p : Program)
    : outcome nat * Program :=
  let o := next_oid p in
  match init env args {| world := globals p; self := new_object o |} with
  | (Return _, st) =>
      (Return o, {| globals := world st;
                    instances := <[o := self st]> (instances p);
                    next_oid := S o |})
  | (Raise e, st) =>
      (Raise e, {| globals := world st; instances := instances p;
                   next_oid := S o |})
  end.

(** Running a method of instance [t]; [None] when the program holds no
    such instance. *)
Definition call {A} (t : nat) (c : M A) (p : Program)
    : option (outcome A) * Program :=
  match instances p !! t with
  | Some s =>
      let '(r, st) := c {| world := globals p; self := s |} in
      (Some r, {| globals := world st;
                  instances := <[t := self st]> (instances p);
                  next_oid := next_oid p |})
  | None => (None, p)
  end.

(** [t.<method>], the stub request. *)
Definition request (env : Env) (t : nat) (m : Method) :=
  call t (property env m).

Inductive Op :=
| Construct (env : Env) (args : InitArgs)
| Request (env : Env) (t : nat) (m : Method)
| RequestChannel (env : Env) (t : nat).

Definition step (op : Op) (p : Program) : Program :=
  match op with
  | Construct env args => (construct env args p).2
  | Request env t m => (request env t m p).2
  | RequestChannel env t => (call t (grpc_channel env) p).2
  end.

Fixpoint run (ops : list Op) (p : Program) : Program :=
  match ops with
  | [] => p
  | op :: ops => run ops (step op p)
  end.

(** The program state right after the modules are imported. *)
Definition initial_program (client_info : ClientInfo) : Program :=
  {| globals := {| cls_stubs := ∅; stubs_heap := []; channels_created := 0;
                   log := []; _client_info := client_info |};
     instances := ∅;
     next_oid := 0 |}.

Definition reachable (p : Program) : Prop :=
  ∃ client_info ops, p = run ops (initial_program client_info).

(** ** Literals of the interface, for stating the results *)

Definition stub_key (m : Method) : string :=
  match m with
  | ListJobs => "list_jobs" | GetJob => "get_job"
  | CreateJob => "create_job" | UpdateJob => "update_job"
  | DeleteJob => "delete_job" | PauseJob => "pause_job"
  | ResumeJob => "resume_job" | RunJob => "run_job"
  end.

Definition method_name (m : Method) : string :=
  match m with
  | ListJobs => "ListJobs" | GetJob => "GetJob"
  | CreateJob => "CreateJob" | UpdateJob => "UpdateJob"
  | DeleteJob => "DeleteJob" | PauseJob => "PauseJob"
  | ResumeJob => "ResumeJob" | RunJob => "RunJob"
  end.

Definition service_name : string := "google.cloud.scheduler.v1.CloudScheduler".

(** Fixtures for the examples. *)
Definition env_ok : Env :=
  {| load_credentials_from_file_ok := fun _ => true; auth_default_ok := true;
     create_channel_ok := fun _ => true; ssl_credentials_ok := true |}.

Definition no_client_info : ClientInfo := {| gapic_version := None |}.

Definition args_channel (c : Channel) : InitArgs :=
  {| host := default_host; credentials := PyNone; credentials_file := None;
     scopes := None; channel := Some c; api_mtls_endpoint := None;
     client_cert_source := None; quota_project_id := None |}.

(** * Vocabulary of the results

    Predicates, invariants and fixtures the statements below are written
    with. *)

(** The dictionary [self._stubs] denotes in a state. *)
Definition visible_stubs (st : State) : gmap string nat :=
  match _stubs (self st) with
  | Some d => d
  | None => cls_stubs (world st)
  end.

Definition is_create_channel (c : ExternalCall) : bool :=
  match c with CallCreateChannel _ _ _ _ _ _ => true | _ => false end.

(** What [grpc_channel] can change: the attribute [_grpc_channel], the
    log (by calls to the channel factory only) and the channel counter. *)
Record grpc_channel_frame (st st1 : State) : Prop := {
  gcf_cls : cls_stubs (world st1) = cls_stubs (world st);
  gcf_heap : stubs_heap (world st1) = stubs_heap (world st);
  gcf_info : _client_info (world st1) = _client_info (world st);
  gcf_oid : oid (self st1) = oid (self st);
  gcf_host : _host (self st1) = _host (self st);
  gcf_cred : _credentials (self st1) = _credentials (self st);
  gcf_wrapped : _wrapped_methods (self st1) = _wrapped_methods (self st);
  gcf_stubs : _stubs (self st1) = _stubs (self st);
  gcf_keep : ∀ c, _grpc_channel (self st) = Some c →
                  _grpc_channel (self st1) = Some c;
  gcf_log : ∃ evs, log (world st1) = log (world st) ++ evs ∧
                   forallb is_create_channel evs = true ∧
                   (is_Some (_grpc_channel (self st)) → evs = []);
}.

(** The state after [self._stubs[key] = channel.unary_unary(...)]. *)
Definition install_stub (c : Channel) (key path : string) (rq rs : Codec)
    (st : State) : State :=
  let w := world st in
  let s := self st in
  let r := length (stubs_heap w) in
  let heap' := stubs_heap w ++
                 [{| stub_channel := c; stub_path := path;
                     request_serializer := rq; response_deserializer := rs |}] in
  let log' := log w ++ [CallUnaryUnary (oid s) c path r] in
  match _stubs s with
  | Some d =>
      {| world := {| cls_stubs := cls_stubs w; stubs_heap := heap';
                     channels_created := channels_created w; log := log';
                     _client_info := _client_info w |};
         self := {| oid := oid s; _grpc_channel := _grpc_channel s;
                    _host := _host s; _credentials := _credentials s;
                    _wrapped_methods := _wrapped_methods s;
                    _stubs := Some (<[key := r]> d) |} |}
  | None =>
      {| world := {| cls_stubs := <[key := r]> (cls_stubs w);
                     stubs_heap := heap';
                     channels_created := channels_created w; log := log';
                     _client_info := _client_info w |};
         self := s |}
  end.

Definition expected_path (m : Method) : string :=
  "/" +:+ service_name +:+ "/" +:+ method_name m.

Definition expected_request_serializer (m : Method) : Codec :=
  {| codec_message := "cloudscheduler." +:+ method_name m +:+ "Request";
     codec_kind := serialize |}.

Definition expected_response_deserializer (m : Method) : Codec :=
  match m with
  | ListJobs => {| codec_message := "cloudscheduler.ListJobsResponse";
                   codec_kind := deserialize |}
  | DeleteJob => {| codec_message := "empty.Empty"; codec_kind := FromString |}
  | _ => {| codec_message := "job.Job"; codec_kind := deserialize |}
  end.

Definition stub_for (m : Method) (stub : Stub) : Prop :=
  stub_path stub = expected_path m ∧
  request_serializer stub = expected_request_serializer m ∧
  response_deserializer stub = expected_response_deserializer m.

Record stubs_ok (heap : list Stub) (d : gmap string nat) : Prop := {
  so_inj : ∀ k1 k2 s, d !! k1 = Some s → d !! k2 = Some s → k1 = k2;
  so_bound : ∀ k s, d !! k = Some s → s < length heap;
  so_path : ∀ m s, d !! stub_key m = Some s →
                   ∃ stub, heap !! s = Some stub ∧ stub_for m stub;
}.

(** Every stub of the dictionary is bound to the channel [c]. *)
Definition on_channel (heap : list Stub) (c : option Channel)
    (d : gmap string nat) : Prop :=
  ∀ k x, d !! k = Some x →
    ∃ stub, heap !! x = Some stub ∧ c = Some (stub_channel stub).

Definition state_ok (st : State) : Prop :=
  stubs_ok (stubs_heap (world st)) (cls_stubs (world st)) ∧
  ∀ d, _stubs (self st) = Some d →
    stubs_ok (stubs_heap (world st)) d ∧
    on_channel (stubs_heap (world st)) (_grpc_channel (self st)) d.

Record extends (st st' : State) : Prop := {
  ext_info : _client_info (world st') = _client_info (world st);
  ext_oid : oid (self st') = oid (self st);
  ext_host : _host (self st') = _host (self st);
  ext_cred : _credentials (self st') = _credentials (self st);
  ext_wrapped : _wrapped_methods (self st') = _wrapped_methods (self st);
  ext_visible : visible_stubs st ⊆ visible_stubs st';
  ext_cls : cls_stubs (world st) ⊆ cls_stubs (world st');
  ext_stubs : is_Some (_stubs (self st')) ↔ is_Some (_stubs (self st));
  ext_keep : ∀ c, _grpc_channel (self st) = Some c →
                  _grpc_channel (self st') = Some c;
  ext_heap : ∃ new, stubs_heap (world st') = stubs_heap (world st) ++ new ∧
               ∀ c, _grpc_channel (self st) = Some c →
                    Forall (λ stub, stub_channel stub = c) new;
  ext_log : ∃ evs, log (world st') = log (world st) ++ evs ∧
              (is_Some (_grpc_channel (self st)) →
               Forall (λ e, is_create_channel e = false) evs);
}.

(** The stub a property builds for a method when the cache has none. *)
Definition built_stub (c : Channel) (m : Method) : Stub :=
  {| stub_channel := c; stub_path := expected_path m;
     request_serializer := expected_request_serializer m;
     response_deserializer := expected_response_deserializer m |}.

Record property_post (m : Method) (st : State) (r : outcome nat)
    (st' : State) : Prop := {
  pp_extends : extends st st';
  pp_return : ∀ s, r = Return s → visible_stubs st' !! stub_key m = Some s;
  pp_total : is_Some (_grpc_channel (self st)) → ∃ s, r = Return s;
  pp_ok : state_ok st → state_ok st';
  pp_hit : ∀ s, visible_stubs st !! stub_key m = Some s →
                r = Return s ∧ st' = st;
  pp_miss : visible_stubs st !! stub_key m = None →
            ∀ s, r = Return s →
              ∃ c, _grpc_channel (self st') = Some c ∧
                   s = length (stubs_heap (world st)) ∧
                   stubs_heap (world st')
                   = stubs_heap (world st) ++ [built_stub c m];
}.

(** The methods in the order of the dictionary display, each with the
    [default_retry] it is wrapped with. *)
Definition policy_table : list (Method * option Retry) :=
  let retry := Some {| initial := 0.1; maximum := 60.0; multiplier := 1.3;
                       predicate := [ServiceUnavailable; DeadlineExceeded] |} in
  [(ListJobs, retry); (GetJob, retry); (CreateJob, None); (UpdateJob, None);
   (DeleteJob, retry); (PauseJob, retry); (ResumeJob, retry); (RunJob, None)].

(** The dictionary the display yields when the keys evaluate to [ks]. *)
Fixpoint stored (ci : ClientInfo) (timeout : option Q)
    (tbl : list (Method * option Retry)) (ks : list nat)
    (acc : gmap nat WrappedMethod) : gmap nat WrappedMethod :=
  match tbl, ks with
  | (m, rt) :: tbl, s :: ks =>
      stored ci timeout tbl ks (<[s := wrap_method s rt timeout ci]> acc)
  | _, _ => acc
  end.

Definition with_wrapped (d : gmap nat WrappedMethod) (s : Self) : Self :=
  {| oid := oid s; _grpc_channel := _grpc_channel s; _host := _host s;
     _credentials := _credentials s; _wrapped_methods := Some d;
     _stubs := _stubs s |}.

(** The host the instance keeps: the mutual TLS endpoint when no channel
    is given and one is configured, the [host] argument otherwise, with
    the default port appended when there is no colon. *)
Definition effective_host (args : InitArgs) : string :=
  match channel args with
  | Some _ => host args
  | None => if truthy_str (api_mtls_endpoint args)
            then default "" (api_mtls_endpoint args)
            else host args
  end.

Definition with_default_port (h : string) : string :=
  if contains_colon h then h else h +:+ ":443".

Definition with_stubs (d : gmap string nat) (s : Self) : Self :=
  {| oid := oid s; _grpc_channel := _grpc_channel s; _host := _host s;
     _credentials := _credentials s; _wrapped_methods := _wrapped_methods s;
     _stubs := Some d |}.

(** What holds of the state in which the constructor either raises early
    or starts to prepare the wrapped methods. *)
Record before_prep (args : InitArgs) (w : World) (o : nat) (st0 : State)
    : Prop := {
  bp_cls : cls_stubs (world st0) = cls_stubs w;
  bp_heap : stubs_heap (world st0) = stubs_heap w;
  bp_info : _client_info (world st0) = _client_info w;
  bp_oid : oid (self st0) = o;
  bp_stubs : _stubs (self st0) = None;
  bp_wrapped : _wrapped_methods (self st0) = None;
  bp_channel : ∀ c, channel args = Some c → _grpc_channel (self st0) = Some c;
  bp_log : ∃ evs, log (world st0) = log w ++ evs ∧
             (is_Some (channel args) →
              Forall (λ e, is_create_channel e = false) evs);
}.

(** Everything later results need to know about one run of the
    constructor on a new object. *)
Record init_post (args : InitArgs) (w : World) (o : nat) (r : outcome unit)
    (st' : State) : Prop := {
  ip_heap : ∃ new, stubs_heap (world st') = stubs_heap w ++ new ∧
              ∀ c, channel args = Some c →
                   Forall (λ stub, stub_channel stub = c) new;
  ip_log : ∃ evs, log (world st') = log w ++ evs ∧
             (is_Some (channel args) →
              Forall (λ e, is_create_channel e = false) evs);
  ip_cls : cls_stubs w ⊆ cls_stubs (world st');
  ip_info : _client_info (world st') = _client_info w;
  ip_ok : stubs_ok (stubs_heap w) (cls_stubs w) →
          stubs_ok (stubs_heap (world st')) (cls_stubs (world st'));
  ip_oid : r = Return tt → oid (self st') = o;
  ip_stubs : r = Return tt → _stubs (self st') = Some ∅;
  ip_host : r = Return tt →
            _host (self st') = Some (with_default_port (effective_host args));
  ip_channel : r = Return tt →
               ∀ c, channel args = Some c → _grpc_channel (self st') = Some c;
  ip_wrapped : r = Return tt →
    ∀ m rt, (m, rt) ∈ policy_table →
      ∃ s, cls_stubs (world st') !! stub_key m = Some s ∧
        (stubs_ok (stubs_heap w) (cls_stubs w) →
         ∃ d, _wrapped_methods (self st') = Some d ∧
              d !! s = Some (wrap_method s rt (Some 600.0%Q) (_client_info w)));
}.

(** How the attributes of one instance may change over its lifetime. *)
Record self_extends (s s' : Self) : Prop := {
  se_oid : oid s' = oid s;
  se_host : _host s' = _host s;
  se_cred : _credentials s' = _credentials s;
  se_wrapped : _wrapped_methods s' = _wrapped_methods s;
  se_channel : ∀ c, _grpc_channel s = Some c → _grpc_channel s' = Some c;
  se_stubs : ∀ d, _stubs s = Some d → ∃ d', _stubs s' = Some d' ∧ d ⊆ d';
}.

Record program_ok (p : Program) : Prop := {
  po_cls : stubs_ok (stubs_heap (globals p)) (cls_stubs (globals p));
  po_inst : ∀ t s, instances p !! t = Some s →
            t < next_oid p ∧
            ∃ d, _stubs s = Some d ∧ stubs_ok (stubs_heap (globals p)) d ∧
                 on_channel (stubs_heap (globals p)) (_grpc_channel s) d;
}.

(** Methods of an instance that only read properties. *)
Definition well_behaved {A} (c : M A) : Prop :=
  ∀ st r st', c st = (r, st') →
    extends st st' ∧ (state_ok st → state_ok st').

(** An instance, once constructed, stays in the program and only
    extends. *)
Definition keeps (t : nat) (s : Self) (p' : Program) : Prop :=
  ∃ s', instances p' !! t = Some s' ∧ self_extends s s'.

(** [wm] is the wrapped method instance [o] keeps for method [m]: the
    entry of [_wrapped_methods] under the stub it wraps, that stub being
    the one the property for [m] returned to the constructor. *)
Definition wrapped_at_construction (p' : Program) (o : nat) (m : Method)
    (wm : WrappedMethod) : Prop :=
  ∃ s d stub,
    instances p' !! o = Some s ∧ _wrapped_methods s = Some d ∧
    d !! func wm = Some wm ∧
    cls_stubs (globals p') !! stub_key m = Some (func wm) ∧
    stubs_heap (globals p') !! func wm = Some stub ∧ stub_for m stub.

Definition args_default : InitArgs :=
  {| host := default_host; credentials := PyNone; credentials_file := None;
     scopes := None; channel := None; api_mtls_endpoint := None;
     client_cert_source := None; quota_project_id := None |}.

(** What the remote end does with one attempt, and how long it takes. *)
Inductive Attempt :=
| Responds (duration : Q) (response : nat)
| Fails (duration : Q) (kind : ApiException).

Definition duration (a : Attempt) : Q :=
  match a with Responds d _ => d | Fails d _ => d end.

Inductive CallOutcome :=
| Response (response : nat)
| Failure (kind : ApiException)
| AwaitingServer.

Definition expired (timeout : option Q) (elapsed : Q) : bool :=
  match timeout with
  | Some t => negb (Qle_bool elapsed t)
  | None => false
  end.

Definition capped (delay maximum : Q) : Q :=
  if Qle_bool delay maximum then delay else maximum.

(** Modelled from the spec: the retry loop of the policy wrapper, which
    is [gapic_v1.method.wrap_method] of google.api_core and has no source
    in this repository.  Following section 4.3, the deadline is the
    timeout counted from the start of the invocation; a failure whose
    kind satisfies the retryable predicate is followed by a wait of the
    current delay (capped at the maximum, then multiplied) and a new
    attempt, until success, a failure of another kind, or the deadline;
    without a retry policy every failure is final.  [server] scripts the
    remote end attempt by attempt.  The result is the outcome, the
    number of attempts made and the waits between them. *)
Fixpoint retry_loop (retry : option Retry) (timeout : option Q)
    (elapsed delay : Q) (server : list Attempt)
    : CallOutcome * nat * list Q :=
  match server with
  | [] => (AwaitingServer, 0, [])
  | a :: server =>
      let elapsed := (elapsed + duration a)%Q in
      if expired timeout elapsed then (Failure DeadlineExceeded, 1, [])
      else
        match a with
        | Responds _ r => (Response r, 1, [])
        | Fails _ kind =>
            match retry with
            | Some policy =>
                if if_exception_type_holds (predicate policy) kind
                then
                  let wait := capped delay (maximum policy) in
                  if expired timeout (elapsed + wait)
                  then (Failure DeadlineExceeded, 1, [])
                  else
                    let '(o, n, waits) :=
                      retry_loop retry timeout (elapsed + wait)%Q
                        (delay * multiplier policy)%Q server in
                    (o, S n, wait :: waits)
                else (Failure kind, 1, [])
            | None => (Failure kind, 1, [])
            end
        end
  end.

(** Modelled from the spec: calling a wrapped method runs the loop of
    section 4.3 from the start of the invocation, with the initial delay
    of its policy when it has one. *)
Definition invoke (wm : WrappedMethod) (server : list Attempt)
    : CallOutcome * nat * list Q :=
  retry_loop (default_retry wm) (default_timeout wm) 0
    (match default_retry wm with Some policy => initial policy | None => 0 end)
    server.

Definition duplicate_message : string :=
  "'credentials_file' and 'credentials' are mutually exclusive".

Definition args_mtls_both : InitArgs :=
  {| host := default_host;
     credentials := PyObject (CallerCredentials 0);
     credentials_file := Some "key.json";
     scopes := None; channel := None;
     api_mtls_endpoint := Some "mtls.example.com";
     client_cert_source := None; quota_project_id := None |}.

Definition args_empty_file : InitArgs :=
  {| host := default_host;
     credentials := PyObject (CallerCredentials 0);
     credentials_file := Some "";
     scopes := None; channel := None; api_mtls_endpoint := None;
     client_cert_source := None; quota_project_id := None |}.

Definition args_both : InitArgs :=
  {| host := default_host;
     credentials := PyObject (CallerCredentials 0);
     credentials_file := Some "key.json";
     scopes := None; channel := None; api_mtls_endpoint := None;
     client_cert_source := None; quota_project_id := None |}.

Definition args_channel_both : InitArgs :=
  {| host := default_host;
     credentials := PyObject (CallerCredentials 0);
     credentials_file := Some "key.json";
     scopes := None; channel := Some (SuppliedChannel 0);
     api_mtls_endpoint := None;
     client_cert_source := None; quota_project_id := None |}.

(** How many times [unary_unary] was called for a path on behalf of the
    object [o]. *)
Definition stubs_built (o : nat) (path : string) (l : list ExternalCall) : nat :=
  length (List.filter
            (λ e, match e with
                  | CallUnaryUnary o' _ path' _ =>
                      bool_decide (o' = o) && bool_decide (path' = path)
                  | _ => false
                  end) l).

(** The attribute [f] of instance [t]. *)
Definition instance_attr {A} (p : Program) (t : nat) (f : Self → option A)
    : option A :=
  match instances p !! t with
  | Some s => f s
  | None => None
  end.

(** The entry of [_wrapped_methods] of instance [t] under a stub. *)
Definition wrapped_entry (p : Program) (t : nat) (stub : nat)
    : option WrappedMethod :=
  match instance_attr p t _wrapped_methods with
  | Some d => d !! stub
  | None => None
  end.

(** The call [grpc_channel] makes when the instance has no channel. *)
Definition lazy_create_call (h : string) (cr : PyCredentials) : ExternalCall :=
  CallCreateChannel h cr None None (Some AUTH_SCOPES) None.

(** The state after the external call [c] was logged. *)
Definition logged (c : ExternalCall) (st : State) : State :=
  {| world := {| cls_stubs := cls_stubs (world st);
                 stubs_heap := stubs_heap (world st);
                 channels_created := channels_created (world st);
                 log := log (world st) ++ [c];
                 _client_info := _client_info (world st) |};
     self := self st |}.

(** The state after the channel factory returned a new channel and
    [self._grpc_channel] was bound to it. *)
Definition opened (st : State) : State :=
  {| world := {| cls_stubs := cls_stubs (world st);
                 stubs_heap := stubs_heap (world st);
                 channels_created := S (channels_created (world st));
                 log := log (world st);
                 _client_info := _client_info (world st) |};
     self := {| oid := oid (self st);
                _grpc_channel :=
                  Some (CreatedChannel (channels_created (world st)));
                _host := _host (self st);
                _credentials := _credentials (self st);
                _wrapped_methods := _wrapped_methods (self st);
                _stubs := _stubs (self st) |} |}.

Definition methods : list Method :=
  [ListJobs; GetJob; CreateJob; UpdateJob; DeleteJob; PauseJob; ResumeJob; RunJob].

Definition is_unary_unary (c : ExternalCall) : bool :=
  match c with CallUnaryUnary _ _ _ _ => true | _ => false end.

Definition is_load_credentials (c : ExternalCall) : bool :=
  match c with CallLoadCredentialsFromFile _ _ _ => true | _ => false end.

(** What every call the transport makes to a collaborator satisfies: a
    channel is created for a host with a port and with scopes, credentials
    are resolved with scopes, and a multicallable is made for the wire
    path of one of the eight methods. *)
Definition well_formed_call (c : ExternalCall) : bool :=
  match c with
  | CallCreateChannel h _ _ _ sc _ => contains_colon h && truthy_seq sc
  | CallLoadCredentialsFromFile _ sc _ => truthy_seq sc
  | CallAuthDefault sc _ => truthy_seq sc
  | CallUnaryUnary _ _ path _ =>
      existsb (λ m, String.eqb path (expected_path m)) methods
  | CallClientCertSource | CallSslCredentials => true
  end.

(** The number of calls to the channel factory among the calls [evs]. *)
Definition creates (evs : list ExternalCall) : nat :=
  length (List.filter is_create_channel evs).

(** One when the instance still has to obtain its channel. *)
Definition needs_channel (st : State) : nat :=
  match _grpc_channel (self st) with Some _ => 0 | None => 1 end.

(** The attributes the base constructor has assigned by the time the
    properties are read. *)
Definition attrs_set (s : Self) : Prop :=
  ∃ h cr, _host s = Some h ∧ contains_colon h = true ∧ _credentials s = Some cr.

Record property_trace (env : Env) (st : State) (r : outcome nat)
    (st' : State) : Prop := {
  pt_log : ∃ evs, log (world st') = log (world st) ++ evs ∧
             Forall (λ e, well_formed_call e = true ∧
                          (is_create_channel e || is_unary_unary e = true)) evs ∧
             (creates evs ≤ needs_channel st)%nat ∧
             (∀ x, r = Return x →
                (creates evs + needs_channel st' ≤ needs_channel st)%nat);
  pt_raise : ∀ e, r = Raise e →
             ∃ h cr, _host (self st) = Some h ∧ _credentials (self st) = Some cr ∧
                     _grpc_channel (self st) = None ∧
                     create_channel_ok env h = false ∧
                     e = ExternalError (lazy_create_call h cr) ∧
                     log (world st')
                     = log (world st) ++ [lazy_create_call h cr] ∧
                     stubs_heap (world st') = stubs_heap (world st) ∧
                     cls_stubs (world st') = cls_stubs (world st) ∧
                     self st' = self st;
  pt_total : (∀ h, _host (self st) = Some h → create_channel_ok env h = true) →
             ∃ x, r = Return x;
  pt_cls : is_Some (_stubs (self st)) →
           cls_stubs (world st') = cls_stubs (world st);
  pt_heap : stubs_heap (world st') = stubs_heap (world st) ∨
            ∃ stub, stubs_heap (world st') = stubs_heap (world st) ++ [stub];
  pt_channel : ∀ x, r = Return x →
               _grpc_channel (self st') = _grpc_channel (self st) ∨
               (_grpc_channel (self st) = None ∧
                _grpc_channel (self st')
                = Some (CreatedChannel (channels_created (world st))));
}.

(** The part of [property_trace] that composes over a sequence of
    reads. *)
Record effect_trace {A} (env : Env) (st : State) (r : outcome A)
    (st' : State) : Prop := {
  et_log : ∃ evs, log (world st') = log (world st) ++ evs ∧
             Forall (λ e, well_formed_call e = true ∧
                          (is_create_channel e || is_unary_unary e = true)) evs ∧
             (creates evs ≤ needs_channel st)%nat ∧
             (∀ x, r = Return x →
                (creates evs + needs_channel st' ≤ needs_channel st)%nat);
  et_raise : ∀ e, r = Raise e →
             ∃ h cr, _host (self st) = Some h ∧ _credentials (self st) = Some cr ∧
                     create_channel_ok env h = false ∧
                     e = ExternalError (lazy_create_call h cr) ∧
                     last (log (world st')) = Some (lazy_create_call h cr);
  et_total : (∀ h, _host (self st) = Some h → create_channel_ok env h = true) →
             ∃ x, r = Return x;
}.

(** The credentials a constructed transport keeps. *)
Definition resolved_credentials (args : InitArgs) : PyCredentials :=
  let sc := seq_or (scopes args) AUTH_SCOPES in
  match credentials_file args with
  | Some f => PyObject (FileCredentials f sc (quota_project_id args))
  | None =>
      match channel args with
      | Some _ => PyFalse
      | None =>
          match credentials args with
          | PyNone => PyObject (AmbientCredentials sc (quota_project_id args))
          | c => c
          end
      end
  end.

(** Whether the collaborator returns from a call, in an environment and
    with the [client_cert_source] of the arguments. *)
Definition external_returns (env : Env) (args : InitArgs)
    (call : ExternalCall) : bool :=
  match call with
  | CallCreateChannel h _ _ _ _ _ => create_channel_ok env h
  | CallLoadCredentialsFromFile f _ _ => load_credentials_from_file_ok env f
  | CallAuthDefault _ _ => auth_default_ok env
  | CallSslCredentials => ssl_credentials_ok env
  | CallClientCertSource =>
      match client_cert_source args with
      | Some CertSourceRaises => false
      | _ => true
      end
  | CallUnaryUnary _ _ _ _ => true
  end.

(** The exceptions the constructor raises before it reads a property:
    the duplicate-credentials error, or the failure of the external call
    it made last. *)
Definition early_exception (env : Env) (args : InitArgs)
    (evs : list ExternalCall) (e : Exception) : Prop :=
  (e = DuplicateCredentialArgs duplicate_message ∧ channel args = None ∧
   truthy_credentials (credentials args) = true ∧
   truthy_str (credentials_file args) = true) ∨
  (∃ call, e = ExternalError call ∧ is_unary_unary call = false ∧
           external_returns env args call = false ∧ last evs = Some call).

(** What a caller can observe of one construction. *)
Record construct_trace (env : Env) (args : InitArgs) (p : Program)
    (r : outcome nat) (p' : Program) : Prop := {
  ct_log : ∃ evs, log (globals p') = log (globals p) ++ evs ∧
             Forall (λ e, well_formed_call e = true) evs ∧
             (creates evs ≤ 1)%nat ∧
             (is_Some (channel args) →
              Forall (λ e, is_load_credentials e || is_unary_unary e = true)
                evs);
  ct_raise : ∀ e, r = Raise e →
    (e = DuplicateCredentialArgs duplicate_message ∧ channel args = None ∧
     truthy_credentials (credentials args) = true ∧
     truthy_str (credentials_file args) = true) ∨
    (∃ call, e = ExternalError call ∧ external_returns env args call = false ∧
             last (log (globals p')) = Some call);
  ct_total :
    ¬ (channel args = None ∧ truthy_credentials (credentials args) = true ∧
       truthy_str (credentials_file args) = true) →
    (∀ call, external_returns env args call = true) →
    r = Return (next_oid p);
  ct_attrs : ∀ o, r = Return o →
    ∃ s, instances p' !! o = Some s ∧
         _host s = Some (with_default_port (effective_host args)) ∧
         _credentials s = Some (resolved_credentials args);
}.

(** Every instance has its host, with a port, and its credentials. *)
Definition attrs_ok (p : Program) : Prop :=
  ∀ t s, instances p !! t = Some s → attrs_set s.

Definition args_mtls : InitArgs :=
  {| host := default_host; credentials := PyNone; credentials_file := None;
     scopes := None; channel := None;
     api_mtls_endpoint := Some "mtls.example.com";
     client_cert_source := Some (CertSourceReturns "cert" "key");
     quota_project_id := None |}.

(** Whether the base constructor obtains credentials: the loader it
    calls, if any, returns. *)
Definition credentials_obtained (env : Env) (credentials : PyCredentials)
    (credentials_file : option string) : bool :=
  match credentials_file with
  | Some f => load_credentials_from_file_ok env f
  | None =>
      match credentials with
      | PyNone => auth_default_ok env
      | _ => true
      end
  end.

Definition has_channel (st : State) : Prop :=
  is_Some (_grpc_channel (self st)).

(** Two computations that do the same on every instance that has its
    channel, and leave it with one. *)
Definition agree {A} (c c' : M A) : Prop :=
  ∀ st, has_channel st → c st = c' st ∧ has_channel (c st).2.

Definition env_only_files : Env :=
  {| load_credentials_from_file_ok := λ _, true; auth_default_ok := false;
     create_channel_ok := λ _, false; ssl_credentials_ok := false |}.

Definition args_channel_mtls : InitArgs :=
  {| host := default_host;
     credentials := PyObject (CallerCredentials 0);
     credentials_file := None;
     scopes := Some []; channel := Some (SuppliedChannel 0);
     api_mtls_endpoint := Some "mtls.example.com";
     client_cert_source := Some CertSourceRaises;
     quota_project_id := None |}.

(** The dictionary of the class holds a stub for each method. *)
Definition cls_complete (w : World) : Prop :=
  ∀ m, is_Some (cls_stubs w !! stub_key m).

Definition args_falsy : InitArgs :=
  {| host := default_host; credentials := PyNone; credentials_file := None;
     scopes := Some []; channel := None; api_mtls_endpoint := Some "";
     client_cert_source := Some CertSourceRaises; quota_project_id := None |}.

(** The call that obtains the SSL credentials, and what it yields. *)
Definition mtls_ssl_call (ccs : option CertSource) : ExternalCall :=
  match ccs with
  | Some _ => CallClientCertSource
  | None => CallSslCredentials
  end.

Definition mtls_ssl_credentials (ccs : option CertSource) : SslCredentials :=
  match ccs with
  | Some (CertSourceReturns cert key) => SslFromCertificate cert key
  | _ => SslApplicationDefault
  end.

(** The call to the channel factory in the mutual TLS branch. *)
Definition mtls_create_call (args : InitArgs) : ExternalCall :=
  CallCreateChannel
    (with_default_port (default "" (api_mtls_endpoint args)))
    (credentials args) (credentials_file args)
    (Some (mtls_ssl_credentials (client_cert_source args)))
    (seq_or (scopes args) AUTH_SCOPES) (quota_project_id args).

(** * Results *)

(** ** Running the monad *)

Ltac monad_unfold :=
  unfold mbind, M_bind, mret, M_ret, raise, get_self, get_world, put_self,
    put_world, getattr, record, set_grpc_channel, set_host, set_credentials,
    set_wrapped_methods, set_stubs, read_stubs, setitem_stubs.

Ltac exec := repeat progress (monad_unfold; simpl).

(** *** [grpc_channel] *)

Lemma grpc_channel_cached env st c :
  _grpc_channel (self st) = Some c →
  grpc_channel env st = (Return c, st).
Proof.
  intros Hc. destruct st as [w s]. simpl in Hc.
  unfold grpc_channel. exec. rewrite Hc. exec. by rewrite Hc.
Qed.

Lemma grpc_channel_frame_refl st : grpc_channel_frame st st.
Proof.
  split; try done. exists []. by rewrite app_nil_r.
Qed.

Lemma grpc_channel_spec env st r st1 :
  grpc_channel env st = (r, st1) →
  grpc_channel_frame st st1 ∧
  (∀ c, r = Return c → _grpc_channel (self st1) = Some c).
Proof.
  destruct (_grpc_channel (self st)) as [c|] eqn:Hc.
  - rewrite (grpc_channel_cached env st c Hc). intros [= <- <-].
    split; [apply grpc_channel_frame_refl|]. by intros c' [= <-].
  - destruct st as [w s]. simpl in Hc.
    unfold grpc_channel, create_channel, grpc_helpers_async_create_channel.
    exec. rewrite Hc. exec.
    destruct (_host s) as [h|] eqn:Hh; exec.
    2:{ intros [= <- <-]. split; [apply grpc_channel_frame_refl|done]. }
    destruct (_credentials s) as [cr|] eqn:Hcr; exec.
    2:{ intros [= <- <-]. split; [apply grpc_channel_frame_refl|done]. }
    destruct (create_channel_ok env h); exec.
    + intros [= <- <-]. split; [|by intros c [= <-]].
      split; simpl; try done; try congruence.
      eexists. split; [done|]. split; [done|].
      rewrite Hc. by intros [? ?].
    + intros [= <- <-]. split; [|done].
      split; simpl; try done; try congruence.
      eexists. split; [done|]. split; [done|].
      rewrite Hc. by intros [? ?].
Qed.

(** *** The stub properties *)

Lemma stub_property_hit env key path rq rs st s :
  visible_stubs st !! key = Some s →
  stub_property env key path rq rs st = (Return s, st).
Proof.
  destruct st as [w o]. unfold visible_stubs, stub_property. simpl.
  intros Hs. exec.
  destruct (_stubs o) as [d|] eqn:Hd; exec; rewrite Hs; exec;
    rewrite ?Hd; exec; by rewrite Hs.
Qed.

Lemma stub_property_miss env key path rq rs st :
  visible_stubs st !! key = None →
  stub_property env key path rq rs st =
    match grpc_channel env st with
    | (Return c, st1) =>
        (Return (length (stubs_heap (world st1))),
         install_stub c key path rq rs st1)
    | (Raise e, st1) => (Raise e, st1)
    end.
Proof.
  intros Hs.
  destruct (grpc_channel env st) as [r st1] eqn:Hg.
  destruct (grpc_channel_spec env st r st1 Hg) as [F _].
  destruct st as [w o], st1 as [w1 o1]. destruct F; simpl in *.
  unfold visible_stubs in Hs. simpl in Hs.
  unfold stub_property, install_stub. exec.
  destruct (_stubs o) as [d|] eqn:Hd; exec; rewrite Hs; exec;
    rewrite Hg; destruct r as [c|e]; exec; rewrite ?gcf_stubs0; exec;
    try done; rewrite ?gcf_stubs0; exec; by rewrite lookup_insert_eq.
Qed.

(** *** What the interface prescribes for each method *)

Lemma property_eq env m :
  property env m =
  stub_property env (stub_key m) (expected_path m)
    (expected_request_serializer m) (expected_response_deserializer m).
Proof. by destruct m. Qed.

Lemma stub_key_inj m1 m2 : stub_key m1 = stub_key m2 → m1 = m2.
Proof. by destruct m1, m2. Qed.

(** *** Well-formed stub dictionaries *)

Lemma stubs_ok_empty heap : stubs_ok heap ∅.
Proof. split; intros *; by rewrite lookup_empty. Qed.

Lemma stubs_ok_grow heap new d :
  stubs_ok heap d → stubs_ok (heap ++ new) d.
Proof.
  intros [Hi Hb Hp]. split; [done| |].
  - intros k s Hk. rewrite length_app. specialize (Hb k s Hk). lia.
  - intros m s Hk. destruct (Hp m s Hk) as (stub & Hs & Hf).
    exists stub. split; [|done]. by apply lookup_app_l_Some.
Qed.

Lemma stubs_ok_install heap d m c :
  stubs_ok heap d →
  stubs_ok
    (heap ++ [{| stub_channel := c; stub_path := expected_path m;
                 request_serializer := expected_request_serializer m;
                 response_deserializer := expected_response_deserializer m |}])
    (<[stub_key m := length heap]> d).
Proof.
  intros [Hi Hb Hp]. split.
  - intros k1 k2 s. rewrite !lookup_insert.
    repeat case_decide; subst; try done.
    + intros [= <-] Hk. specialize (Hb _ _ Hk). lia.
    + intros Hk [= <-]. specialize (Hb _ _ Hk). lia.
    + apply Hi.
  - intros k s. rewrite lookup_insert, length_app. simpl.
    case_decide.
    + intros [= <-]. lia.
    + intros Hk. specialize (Hb _ _ Hk). lia.
  - intros m' s. rewrite lookup_insert. case_decide as Hm.
    + apply stub_key_inj in Hm as <-. intros [= <-].
      eexists. split.
      * rewrite lookup_app_r by lia. by rewrite Nat.sub_diag.
      * by repeat split.
    + intros Hk. destruct (Hp m' s Hk) as (stub & Hs & Hf).
      exists stub. split; [|done]. by apply lookup_app_l_Some.
Qed.

Lemma on_channel_grow heap new c d :
  on_channel heap c d → on_channel (heap ++ new) c d.
Proof.
  intros H k x Hk. destruct (H k x Hk) as (stub & Hs & Hc).
  exists stub. split; [|done]. by apply lookup_app_l_Some.
Qed.

Lemma on_channel_empty heap c : on_channel heap c ∅.
Proof. intros k x. by rewrite lookup_empty. Qed.

(** *** How a state may evolve while properties are read *)

Lemma extends_refl st : extends st st.
Proof.
  split; try done.
  - exists []. by rewrite app_nil_r.
  - exists []. by rewrite app_nil_r.
Qed.

Lemma extends_trans st1 st2 st3 :
  extends st1 st2 → extends st2 st3 → extends st1 st3.
Proof.
  intros [I1 O1 H1 C1 W1 V1 L1 S1 K1 (n1 & E1 & F1) (e1 & G1 & N1)]
         [I2 O2 H2 C2 W2 V2 L2 S2 K2 (n2 & E2 & F2) (e2 & G2 & N2)].
  split; try congruence; try (by etrans).
  - auto.
  - exists (n1 ++ n2). split; [by rewrite E2, E1, app_assoc|].
    intros c Hc. apply Forall_app. split; [by apply F1|].
    apply F2. by apply K1.
  - exists (e1 ++ e2). split; [by rewrite G2, G1, app_assoc|].
    intros [c Hc]. apply Forall_app. split; [apply N1; eauto|].
    apply N2. exists c. by apply K1.
Qed.

Lemma frame_extends st st1 : grpc_channel_frame st st1 → extends st st1.
Proof.
  intros [Hcls Hheap Hinfo Hoid Hhost Hcred Hwr Hst Hkeep (evs & E & _ & F)].
  split; try done.
  - unfold visible_stubs. by rewrite Hst, Hcls.
  - by rewrite Hcls.
  - by rewrite Hst.
  - exists []. by rewrite app_nil_r.
  - exists evs. split; [done|]. intros Hc. by rewrite (F Hc).
Qed.

Lemma install_extends c key path rq rs st :
  visible_stubs st !! key = None →
  _grpc_channel (self st) = Some c →
  extends st (install_stub c key path rq rs st).
Proof.
  destruct st as [w s]. unfold visible_stubs, install_stub. simpl.
  intros Hk Hc.
  assert (∀ stub : Stub, stub_channel stub = c →
            ∀ c', _grpc_channel s = Some c' →
                  Forall (λ stub, stub_channel stub = c') [stub]) as Hone.
  { intros stub Hs c' Hc'. apply Forall_singleton. congruence. }
  destruct (_stubs s) as [d|] eqn:Hd; split; simpl; rewrite ?Hd; try done;
    try (by apply insert_subseteq);
    try (eexists; split; [done|]); try (by apply Hone).
  all: try (intros _; by apply Forall_singleton).
  all: unfold visible_stubs; simpl; rewrite Hd; by apply insert_subseteq.
Qed.

Lemma frame_state_ok st st1 :
  grpc_channel_frame st st1 → state_ok st → state_ok st1.
Proof.
  intros F [Hc Hs]. unfold state_ok.
  rewrite (gcf_heap _ _ F), (gcf_cls _ _ F), (gcf_stubs _ _ F).
  split; [done|]. intros d Hd. destruct (Hs d Hd) as [Hok Hon].
  split; [done|]. intros k x Hk. destruct (Hon k x Hk) as (stub & Hx & Hch).
  exists stub. split; [done|]. by apply (gcf_keep _ _ F).
Qed.

Lemma install_state_ok c m st :
  _grpc_channel (self st) = Some c →
  state_ok st →
  state_ok (install_stub c (stub_key m) (expected_path m)
              (expected_request_serializer m)
              (expected_response_deserializer m) st).
Proof.
  destruct st as [w s]. unfold state_ok, install_stub. simpl.
  intros Hch [Hc Hs]. destruct (_stubs s) as [d|] eqn:Hd; simpl.
  - split; [by apply stubs_ok_grow|].
    intros d' [= <-]. destruct (Hs d eq_refl) as [Hok Hon].
    split; [by apply stubs_ok_install|].
    intros k x. rewrite lookup_insert. case_decide.
    + intros [= <-]. eexists. split.
      * rewrite lookup_app_r by lia. by rewrite Nat.sub_diag.
      * done.
    + intros Hk. by apply (on_channel_grow _ _ _ _ Hon k x).
  - rewrite Hd. split; [by apply stubs_ok_install|done].
Qed.

Lemma install_lookup c key path rq rs st :
  visible_stubs (install_stub c key path rq rs st) !! key
  = Some (length (stubs_heap (world st))).
Proof.
  destruct st as [w s]. unfold visible_stubs, install_stub. simpl.
  destruct (_stubs s) as [d|] eqn:Hd; simpl; rewrite ?Hd;
    by rewrite lookup_insert_eq.
Qed.

Lemma install_heap c key path rq rs st :
  stubs_heap (world (install_stub c key path rq rs st))
  = stubs_heap (world st) ++
      [{| stub_channel := c; stub_path := path;
          request_serializer := rq; response_deserializer := rs |}].
Proof.
  destruct st as [w s]. unfold install_stub. simpl.
  by destruct (_stubs s).
Qed.

Lemma install_channel c key path rq rs st :
  _grpc_channel (self (install_stub c key path rq rs st))
  = _grpc_channel (self st).
Proof.
  destruct st as [w s]. unfold install_stub. simpl.
  by destruct (_stubs s).
Qed.

Lemma property_spec env m st r st' :
  property env m st = (r, st') → property_post m st r st'.
Proof.
  rewrite property_eq.
  destruct (visible_stubs st !! stub_key m) as [s|] eqn:Hs.
  - rewrite (stub_property_hit _ _ _ _ _ _ _ Hs). intros [= <- <-].
    split.
    + apply extends_refl.
    + by intros s' [= <-].
    + eauto.
    + done.
    + intros s' Hs'. rewrite Hs in Hs'. by injection Hs' as <-.
    + by rewrite Hs.
  - rewrite (stub_property_miss _ _ _ _ _ _ Hs).
    destruct (grpc_channel env st) as [[c|e] st1] eqn:Hg;
      destruct (grpc_channel_spec env st _ st1 Hg) as [F Hret];
      intros [= <- <-].
    + specialize (Hret c eq_refl).
      assert (visible_stubs st1 !! stub_key m = None) as Hs1.
      { unfold visible_stubs.
        by rewrite (gcf_stubs _ _ F), (gcf_cls _ _ F). }
      split.
      * eapply extends_trans; [by apply frame_extends|].
        by apply install_extends.
      * intros s [= <-]. rewrite install_lookup. done.
      * eauto.
      * intros Hok. apply install_state_ok; [done|]. by eapply frame_state_ok.
      * intros s Hs'. by rewrite Hs in Hs'.
      * intros _ s [= <-]. exists c.
        rewrite install_channel, install_heap, (gcf_heap _ _ F). done.
    + split.
      * by apply frame_extends.
      * done.
      * intros [c Hc]. rewrite (grpc_channel_cached env st c Hc) in Hg.
        done.
      * by apply frame_state_ok.
      * intros s Hs'. by rewrite Hs in Hs'.
      * done.
Qed.

(** *** [_prep_wrapped_messages] *)

Lemma visible_ok st :
  state_ok st → stubs_ok (stubs_heap (world st)) (visible_stubs st).
Proof.
  intros [Hc Hs]. unfold visible_stubs.
  destruct (_stubs (self st)) as [d|] eqn:Hd; [by apply Hs|done].
Qed.

Lemma item_spec env m retry timeout st r st' :
  CloudSchedulerTransport.item (property env m) retry timeout st = (r, st') →
  extends st st' ∧ (state_ok st → state_ok st') ∧
  ∀ kv, r = Return kv →
    ∃ s, kv = (s, wrap_method s retry timeout (_client_info (world st))) ∧
         visible_stubs st' !! stub_key m = Some s.
Proof.
  unfold CloudSchedulerTransport.item. exec.
  destruct (property env m st) as [[k|e] st1] eqn:H1;
    destruct (property_spec env m st _ st1 H1) as [E1 R1 _ O1 _ _].
  - specialize (R1 k eq_refl).
    destruct (property env m st1) as [r2 st2] eqn:H2.
    destruct (property_spec env m st1 _ st2 H2) as [_ _ _ _ Hit _].
    destruct (Hit k R1) as [-> ->]. exec. intros [= <- <-].
    split; [done|]. split; [done|]. intros kv [= <-].
    exists k. by rewrite (ext_info _ _ E1).
  - intros [= <- <-]. done.
Qed.

Lemma dict_display_spec env timeout tbl acc st r st' :
  dict_display
    (map (λ p, CloudSchedulerTransport.item (property env p.1) p.2 timeout) tbl)
    acc st = (r, st') →
  extends st st' ∧ (state_ok st → state_ok st') ∧
  ∀ d, r = Return d →
    ∃ ks, Forall2 (λ p s, visible_stubs st' !! stub_key p.1 = Some s) tbl ks ∧
          d = stored (_client_info (world st)) timeout tbl ks acc.
Proof.
  revert acc st. induction tbl as [|[m rt] tbl IH]; intros acc st; simpl.
  - intros [= <- <-]. split; [apply extends_refl|]. split; [done|].
    intros d [= <-]. exists []. by split.
  - unfold mbind at 1, M_bind at 1.
    destruct (CloudSchedulerTransport.item (property env m) rt timeout st)
      as [[kv|e] st1] eqn:Hi;
      destruct (item_spec env m rt timeout st _ st1 Hi) as (E1 & O1 & R1).
    + destruct (R1 kv eq_refl) as (s & -> & Hs). simpl.
      intros Hrest. destruct (IH _ _ Hrest) as (E2 & O2 & R2).
      split; [by eapply extends_trans|]. split; [tauto|].
      intros d ->. destruct (R2 d eq_refl) as (ks & Hks & ->).
      exists (s :: ks). split.
      * constructor; [|done]. simpl.
        eapply lookup_weaken; [done|]. by apply E2.
      * simpl. by rewrite (ext_info _ _ E1).
    + intros [= <- <-]. done.
Qed.

Lemma stored_other ci timeout tbl ks acc s :
  s ∉ ks → stored ci timeout tbl ks acc !! s = acc !! s.
Proof.
  revert ks acc. induction tbl as [|[m rt] tbl IH]; intros [|k ks] acc Hs;
    simpl; try done.
  apply not_elem_of_cons in Hs as [Hne Hs].
  rewrite IH by done. by rewrite lookup_insert_ne.
Qed.

Lemma stored_lookup ci timeout tbl ks acc i m rt s :
  NoDup ks → tbl !! i = Some (m, rt) → ks !! i = Some s →
  stored ci timeout tbl ks acc !! s = Some (wrap_method s rt timeout ci).
Proof.
  revert ks acc i. induction tbl as [|[m' rt'] tbl IH];
    intros [|k ks] acc [|i] Hnd Ht Hk; simplify_eq/=.
  - apply NoDup_cons in Hnd as [Hk _].
    rewrite stored_other by done. by rewrite lookup_insert_eq.
  - apply NoDup_cons in Hnd as [_ Hnd]. by eapply IH.
Qed.

Lemma keys_NoDup (d : gmap string nat) heap
    (tbl : list (Method * option Retry)) ks :
  stubs_ok heap d → NoDup tbl.*1 →
  Forall2 (λ p s, d !! stub_key p.1 = Some s) tbl ks →
  NoDup ks.
Proof.
  intros Hok Hnd Hf. induction Hf as [|[m rt] s tbl ks Hs Hf IH]; simpl in *.
  { constructor. }
  apply NoDup_cons in Hnd as [Hm Hnd]. constructor; [|by apply IH].
  intros Hin. apply Hm.
  apply list_elem_of_lookup in Hin as [i Hi].
  destruct (Forall2_lookup_r _ _ _ _ _ Hf Hi) as ([m' rt'] & Ht & Hs').
  simpl in Hs'.
  assert (m' = m) as ->.
  { apply stub_key_inj. eapply (so_inj _ _ Hok); done. }
  apply list_elem_of_lookup. exists i. by rewrite list_lookup_fmap, Ht.
Qed.

Lemma prep_spec env st r st' :
  CloudSchedulerTransport._prep_wrapped_messages (H := properties env) st
  = (r, st') →
  ∃ st1, extends st st1 ∧ (state_ok st → state_ok st1) ∧
    match r with
    | Raise _ => st' = st1
    | Return _ =>
        ∃ d, st' = {| world := world st1; self := with_wrapped d (self st1) |} ∧
          ∀ m rt, (m, rt) ∈ policy_table →
            ∃ s, visible_stubs st1 !! stub_key m = Some s ∧
                (state_ok st →
                 d !! s = Some (wrap_method s rt (Some 600.0%Q)
                                  (_client_info (world st))))
    end.
Proof.
  unfold CloudSchedulerTransport._prep_wrapped_messages.
  unfold mbind at 1, M_bind at 1.
  match goal with |- context [dict_display ?l ∅ st] =>
    change l with (map (λ p, CloudSchedulerTransport.item (property env p.1)
                               p.2 (Some 600.0%Q)) policy_table)
  end.
  destruct (dict_display _ ∅ st) as [[d|e] st1] eqn:Hd;
    destruct (dict_display_spec _ _ _ _ _ _ _ Hd) as (E & O & R).
  - exec. intros [= <- <-]. exists st1. split; [done|]. split; [done|].
    exists d. split; [done|]. intros m rt Hin.
    destruct (R d eq_refl) as (ks & Hks & ->).
    apply list_elem_of_lookup in Hin as [i Hi].
    destruct (Forall2_lookup_l _ _ _ _ _ Hks Hi) as (s & Hs & Hv).
    exists s. split; [done|]. intros Hok.
    eapply stored_lookup; [|done..].
    eapply keys_NoDup; [apply visible_ok; by apply O| |done].
    by compute_done.
  - intros [= <- <-]. exists st1. done.
Qed.

(** With a channel in place no property raises, so the wrapped methods
    are always prepared. *)
Lemma item_total env m retry timeout st :
  is_Some (_grpc_channel (self st)) →
  ∃ kv st', CloudSchedulerTransport.item (property env m) retry timeout st
            = (Return kv, st').
Proof.
  intros Hc.
  destruct (CloudSchedulerTransport.item (property env m) retry timeout st)
    as [[kv|e] st'] eqn:Hi; [eauto|]. exfalso. revert Hi.
  unfold CloudSchedulerTransport.item. exec.
  destruct (property env m st) as [r1 st1] eqn:H1.
  destruct (property_spec env m st _ st1 H1) as [E1 R1 T1 _ _ _].
  destruct (T1 Hc) as [k ->].
  destruct (property env m st1) as [r2 st2] eqn:H2.
  destruct (property_spec env m st1 _ st2 H2) as [_ _ _ _ Hit _].
  destruct (Hit k (R1 k eq_refl)) as [-> ->]. by exec.
Qed.

Lemma dict_display_total env timeout tbl acc st :
  is_Some (_grpc_channel (self st)) →
  ∃ d st',
    dict_display
      (map (λ p, CloudSchedulerTransport.item (property env p.1) p.2 timeout)
         tbl) acc st = (Return d, st').
Proof.
  revert acc st. induction tbl as [|[m rt] tbl IH]; intros acc st Hc; simpl.
  - by eexists _, _.
  - unfold mbind at 1, M_bind at 1.
    destruct (item_total env m rt timeout st Hc) as (kv & st1 & Hi).
    rewrite Hi. apply IH.
    destruct (item_spec _ _ _ _ _ _ _ Hi) as (E & _ & _).
    destruct Hc as [c Hc]. exists c. by apply (ext_keep _ _ E).
Qed.

Lemma prep_total env st :
  is_Some (_grpc_channel (self st)) →
  ∃ st', CloudSchedulerTransport._prep_wrapped_messages (H := properties env) st
         = (Return tt, st').
Proof.
  intros Hc. unfold CloudSchedulerTransport._prep_wrapped_messages.
  unfold mbind at 1, M_bind at 1.
  match goal with |- context [dict_display ?l ∅ st] =>
    change l with (map (λ p, CloudSchedulerTransport.item (property env p.1)
                               p.2 (Some 600.0%Q)) policy_table)
  end.
  destruct (dict_display_total env (Some 600.0%Q) policy_table ∅ st Hc)
    as (d & st' & ->).
  exec. by eexists.
Qed.

(** *** The constructors *)

Arguments CloudSchedulerTransport._prep_wrapped_messages : simpl never.

Lemma contains_colon_append h : contains_colon (h +:+ ":443") = true.
Proof.
  induction h as [|c h IH]; simpl; [done|]. by destruct (Ascii.eqb c ":").
Qed.

Lemma with_default_port_colon h : contains_colon (with_default_port h) = true.
Proof.
  unfold with_default_port. destruct (contains_colon h) eqn:Hh; [done|].
  apply contains_colon_append.
Qed.

Lemma with_default_port_idem h :
  with_default_port (with_default_port h) = with_default_port h.
Proof.
  unfold with_default_port at 1. by rewrite with_default_port_colon.
Qed.

Ltac init_case :=
  match goal with
  | |- context [match ?x with _ => _ end] => is_var x; destruct x
  | |- context [truthy_str ?x] => destruct (truthy_str x) eqn:?
  | |- context [truthy_credentials ?x] => destruct (truthy_credentials x) eqn:?
  | |- context [load_credentials_from_file_ok ?e ?f] =>
      destruct (load_credentials_from_file_ok e f) eqn:?
  | |- context [auth_default_ok ?e] => destruct (auth_default_ok e) eqn:?
  | |- context [create_channel_ok ?e ?h] =>
      destruct (create_channel_ok e h) eqn:?
  | |- context [ssl_credentials_ok ?e] => destruct (ssl_credentials_ok e) eqn:?
  | |- context [CloudSchedulerTransport._prep_wrapped_messages ?st] =>
      let Hp := fresh "Hprep" in
      destruct (CloudSchedulerTransport._prep_wrapped_messages st)
        as [[[]|?] ?] eqn:Hp
  end.

Ltac init_cases := exec; repeat (init_case; exec).

Ltac init_unfold :=
  unfold init, __init__, CloudSchedulerTransport.__init__, create_channel,
    grpc_helpers_async_create_channel, call_client_cert_source,
    application_default_ssl_credentials, load_credentials_from_file,
    auth_default.

Ltac solve_host :=
  simpl;
  first
    [ done
    | match goal with
      | |- context [contains_colon (default "" ?m)] =>
          let Hcc := fresh "Hcc" in
          destruct (contains_colon (default "" m)) eqn:Hcc;
          rewrite ?Hcc, ?contains_colon_append; done
      end ].

Lemma init_structure env args w o r st' :
  init env args {| world := w; self := new_object o |} = (r, st') →
  ∃ st0, before_prep args w o st0 ∧
    ((∃ e, r = Raise e ∧ st' = st0) ∨
     (_host (self st0) = Some (with_default_port (effective_host args)) ∧
      ∃ r1 st1,
        CloudSchedulerTransport._prep_wrapped_messages (H := properties env) st0
        = (r1, st1) ∧
        match r1 with
        | Return _ => r = Return tt ∧
                      st' = {| world := world st1;
                               self := with_stubs ∅ (self st1) |}
        | Raise e => r = Raise e ∧ st' = st1
        end)).
Proof.
  destruct args as [h cr cf sc ch mtls ccs q].
  unfold effective_host. init_unfold. init_cases.
  all: intros [= <- <-].
  all: unfold with_default_port.
  all: match goal with
       | Hp : CloudSchedulerTransport._prep_wrapped_messages ?st = _ |- _ =>
           exists st
       | |- ∃ st0, _ ∧ ((∃ e, _ ∧ ?s = st0) ∨ _) => exists s
       end.
  all: split; [split; simpl; try done|].
  all: first
    [ eexists;
      (split; [rewrite <- ?app_assoc;
               first [reflexivity | symmetry; apply app_nil_r]|]);
      first [ by intros [? [=]]
            | intros _; repeat (constructor; [done|]); constructor ]
    | left; eexists; by split
    | right; split; [solve_host|]; do 2 eexists;
      split; [eassumption|]; simpl; by split ].
Qed.

Lemma init_spec env args w o r st' :
  init env args {| world := w; self := new_object o |} = (r, st') →
  init_post args w o r st'.
Proof.
  intros Hinit.
  destruct (init_structure _ _ _ _ _ _ Hinit)
    as (st0 & [Bc Bh Bi Bo Bs Bw Bch (evs0 & Bl & Bn)] & Hcase).
  assert (stubs_ok (stubs_heap w) (cls_stubs w) → state_ok st0) as Hok0.
  { intros Hok. split; [by rewrite Bh, Bc|]. by rewrite Bs. }
  destruct Hcase as [(e & -> & ->)|(Hh & r1 & st1 & Hprep & Hr)].
  - split; try done.
    + exists []. rewrite app_nil_r. split; [done|]. by intros; constructor.
    + by exists evs0.
    + by rewrite Bc.
    + by rewrite Bh, Bc.
  - destruct (prep_spec _ _ _ _ Hprep)
      as (st2 & [Ei Eo Eh Ec Ew Ev Ecl Es Ek (new & Hnew & Fnew)
                   (evs & Hevs & Fevs)] & Ok2 & R).
    assert (visible_stubs st2 = cls_stubs (world st2)) as Hvis.
    { unfold visible_stubs. destruct (_stubs (self st2)) eqn:Hs2; [|done].
      assert (is_Some (_stubs (self st0))) as [? Hx] by (apply Es; eauto).
      by rewrite Bs in Hx. }
    assert (world st' = world st2 ∧
            (r = Return tt → ∃ d, self st' = with_stubs ∅ (with_wrapped d (self st2)) ∧
               ∀ m rt, (m, rt) ∈ policy_table →
                 ∃ s, visible_stubs st2 !! stub_key m = Some s ∧
                   (state_ok st0 →
                    d !! s = Some (wrap_method s rt (Some 600.0%Q)
                                     (_client_info (world st0))))))
      as [Hw Hself].
    { destruct r1 as [[]|e].
      - destruct Hr as [-> ->], R as (d & -> & R). simpl. split; [done|].
        intros _. by exists d.
      - destruct Hr as [-> ->]. subst st1. done. }
    split; rewrite ?Hw.
    + exists new. rewrite Hnew, Bh. split; [done|].
      intros c Hc. apply Fnew. by apply Bch.
    + exists (evs0 ++ evs). rewrite Hevs, Bl, app_assoc. split; [done|].
      intros [c Hc]. apply Forall_app. split; [apply Bn; eauto|].
      apply Fevs. exists c. by apply Bch.
    + rewrite <- Bc. done.
    + by rewrite Ei.
    + intros Hok. by destruct (Ok2 (Hok0 Hok)) as [? _].
    + intros Hr'. destruct (Hself Hr') as (d & -> & _). simpl. by rewrite Eo.
    + intros Hr'. by destruct (Hself Hr') as (d & -> & _).
    + intros Hr'. destruct (Hself Hr') as (d & -> & _). simpl. by rewrite Eh.
    + intros Hr' c Hc. destruct (Hself Hr') as (d & -> & _). simpl.
      apply Ek. by apply Bch.
    + intros Hr' m rt Hin. destruct (Hself Hr') as (d & -> & Hd).
      destruct (Hd m rt Hin) as (s & Hs & Hds). exists s.
      rewrite <- Hvis. split; [done|]. intros Hok. exists d. split; [done|].
      rewrite <- Bi. by apply Hds, Hok0.
Qed.

(** *** Programs *)

Lemma self_extends_refl s : self_extends s s.
Proof. split; eauto. Qed.

Lemma self_extends_trans s1 s2 s3 :
  self_extends s1 s2 → self_extends s2 s3 → self_extends s1 s3.
Proof.
  intros [O1 H1 C1 W1 K1 S1] [O2 H2 C2 W2 K2 S2].
  split; try congruence; [eauto|].
  intros d Hd. destruct (S1 d Hd) as (d' & Hd' & Hsub).
  destruct (S2 d' Hd') as (d'' & Hd'' & Hsub'). exists d''.
  split; [done|]. by etrans.
Qed.

Lemma extends_self st st' : extends st st' → self_extends (self st) (self st').
Proof.
  intros [Ei Eo Eh Ec Ew Ev Ecl Es Ek _ _]. split; try done.
  intros d Hd.
  assert (is_Some (_stubs (self st'))) as [d' Hd'] by (apply Es; eauto).
  exists d'. split; [done|]. unfold visible_stubs in Ev.
  by rewrite Hd, Hd' in Ev.
Qed.

Lemma initial_program_ok ci : program_ok (initial_program ci).
Proof.
  split; simpl; [apply stubs_ok_empty|]. intros t s. by rewrite lookup_empty.
Qed.

Lemma property_well_behaved env m : well_behaved (property env m).
Proof.
  intros st r st' H. destruct (property_spec _ _ _ _ _ H). done.
Qed.

Lemma grpc_channel_well_behaved env : well_behaved (grpc_channel env).
Proof.
  intros st r st' H. destruct (grpc_channel_spec _ _ _ _ H) as [F _].
  split; [by apply frame_extends|by apply frame_state_ok].
Qed.

Lemma call_inv {A} t (c : M A) p r p' :
  call t c p = (Some r, p') →
  ∃ s st', instances p !! t = Some s ∧
    c {| world := globals p; self := s |} = (r, st') ∧
    p' = {| globals := world st';
            instances := <[t := self st']> (instances p);
            next_oid := next_oid p |}.
Proof.
  unfold call. destruct (instances p !! t) as [s|] eqn:Hs; [|done].
  destruct (c _) as [r' st'] eqn:Hc. intros [= <- <-]. eauto.
Qed.

Lemma instance_state_ok p t s :
  program_ok p → instances p !! t = Some s →
  state_ok {| world := globals p; self := s |}.
Proof.
  intros [Hc Hi] Hs. destruct (Hi t s Hs) as (_ & d & Hd & Hok & Hon).
  split; simpl; [done|]. by intros d' [= <-]%(eq_trans (eq_sym Hd)).
Qed.

Lemma call_ok {A} t (c : M A) p :
  well_behaved c → program_ok p → program_ok (call t c p).2.
Proof.
  intros Hwb Hok. destruct (call t c p) as [[r|] p'] eqn:Hcall.
  2:{ unfold call in Hcall. destruct (instances p !! t); [|by simplify_eq].
      by destruct (c _). }
  destruct (call_inv _ _ _ _ _ Hcall) as (s & st' & Hs & Hc & ->). simpl.
  destruct (Hwb _ _ _ Hc) as [E Hpres].
  pose proof (Hpres (instance_state_ok _ _ _ Hok Hs)) as [Hcls' Hst'].
  destruct (ext_heap _ _ E) as (new & Hnew & _). simpl in *.
  destruct Hok as [_ Hi]. split; simpl; [done|].
  intros t' s'. rewrite lookup_insert. case_decide as Ht.
  - subst t'. intros [= <-]. split; [by apply (Hi t s)|].
    destruct (Hi t s Hs) as (_ & d & Hd & _).
    destruct (se_stubs _ _ (extends_self _ _ E) d Hd) as (d' & Hd' & _).
    exists d'. split; [done|]. by apply Hst'.
  - intros Hs'. destruct (Hi t' s' Hs') as (Hlt & d & Hd & Hdok & Hon).
    split; [done|]. exists d. split; [done|].
    rewrite Hnew. split; [by apply stubs_ok_grow|by apply on_channel_grow].
Qed.

Lemma construct_inv env args p r p' :
  construct env args p = (r, p') →
  ∃ r0 st',
    init env args {| world := globals p; self := new_object (next_oid p) |}
    = (r0, st') ∧
    globals p' = world st' ∧ next_oid p' = S (next_oid p) ∧
    match r0 with
    | Return _ => r0 = Return tt ∧ r = Return (next_oid p) ∧
                  instances p' = <[next_oid p := self st']> (instances p)
    | Raise e => r = Raise e ∧ instances p' = instances p
    end.
Proof.
  unfold construct. destruct (init env args _) as [[[]|e] st'] eqn:Hi;
    intros [= <- <-]; eauto 10.
Qed.

Lemma construct_ok env args p :
  program_ok p → program_ok (construct env args p).2.
Proof.
  intros [Hc Hi]. destruct (construct env args p) as [r p'] eqn:Hcons.
  destruct (construct_inv _ _ _ _ _ Hcons) as (r0 & st' & Hinit & Hg & Hn & Hr).
  destruct (init_spec _ _ _ _ _ _ Hinit)
    as [(new & Hnew & _) _ _ _ Hok _ Hstubs _ _ _].
  simpl. split; rewrite Hg; [by apply Hok|]. rewrite Hn, Hnew.
  assert (∀ t s, instances p !! t = Some s →
            t < S (next_oid p) ∧
            ∃ d, _stubs s = Some d ∧
                 stubs_ok (stubs_heap (globals p) ++ new) d ∧
                 on_channel (stubs_heap (globals p) ++ new) (_grpc_channel s) d)
    as Hold.
  { intros t s Hs. destruct (Hi t s Hs) as (Hlt & d & Hd & Hdok & Hon).
    split; [lia|]. exists d. split; [done|].
    split; [by apply stubs_ok_grow|by apply on_channel_grow]. }
  destruct r0 as [[]|e].
  - destruct Hr as (_ & _ & ->). intros t s. rewrite lookup_insert.
    case_decide as Ht; [|by apply Hold].
    subst t. intros [= <-]. split; [lia|]. exists ∅.
    split; [by apply Hstubs|].
    split; [apply stubs_ok_empty|apply on_channel_empty].
  - destruct Hr as (_ & ->). done.
Qed.

Lemma step_ok op p : program_ok p → program_ok (step op p).
Proof.
  destruct op as [env args|env t m|env t]; simpl.
  - apply construct_ok.
  - apply call_ok, property_well_behaved.
  - apply call_ok, grpc_channel_well_behaved.
Qed.

Lemma run_ok ops p : program_ok p → program_ok (run ops p).
Proof.
  revert p. induction ops as [|op ops IH]; intros p Hok; simpl; [done|].
  by apply IH, step_ok.
Qed.

Lemma reachable_ok p : reachable p → program_ok p.
Proof.
  intros (ci & ops & ->). apply run_ok, initial_program_ok.
Qed.

Lemma reachable_run ops p : reachable p → reachable (run ops p).
Proof.
  intros (ci & ops0 & ->). exists ci, (ops0 ++ ops).
  generalize (initial_program ci). induction ops0 as [|op ops0 IH]; intros q;
    simpl; [done|]. apply IH.
Qed.

Lemma call_keeps {A} t0 (c : M A) p t s :
  well_behaved c → instances p !! t = Some s → keeps t s (call t0 c p).2.
Proof.
  intros Hwb Hs. destruct (call t0 c p) as [[r|] p'] eqn:Hcall.
  2:{ unfold call in Hcall. destruct (instances p !! t0).
      - by destruct (c _).
      - simplify_eq. exists s. split; [done|apply self_extends_refl]. }
  destruct (call_inv _ _ _ _ _ Hcall) as (s0 & st' & Hs0 & Hc & ->). simpl.
  unfold keeps. simpl. rewrite lookup_insert. case_decide as Ht.
  - subst t0. simplify_eq. eexists. split; [done|].
    destruct (Hwb _ _ _ Hc) as [E _]. by apply extends_self in E.
  - exists s. split; [done|apply self_extends_refl].
Qed.

Lemma construct_keeps env args p t s :
  program_ok p → instances p !! t = Some s →
  keeps t s (construct env args p).2.
Proof.
  intros [_ Hi] Hs. destruct (construct env args p) as [r p'] eqn:Hcons.
  destruct (construct_inv _ _ _ _ _ Hcons) as (r0 & st' & _ & _ & _ & Hr).
  exists s. split; [|apply self_extends_refl]. simpl.
  destruct r0 as [[]|e].
  - destruct Hr as (_ & _ & ->). rewrite lookup_insert_ne; [done|].
    destruct (Hi t s Hs) as [Hlt _]. lia.
  - by destruct Hr as (_ & ->).
Qed.

Lemma step_keeps op p t s :
  program_ok p → instances p !! t = Some s → keeps t s (step op p).
Proof.
  intros Hok Hs. destruct op as [env args|env t0 m|env t0]; simpl.
  - by apply construct_keeps.
  - by apply call_keeps; [apply property_well_behaved|].
  - by apply call_keeps; [apply grpc_channel_well_behaved|].
Qed.

Lemma run_keeps ops p t s :
  program_ok p → instances p !! t = Some s → keeps t s (run ops p).
Proof.
  revert p s. induction ops as [|op ops IH]; intros p s Hok Hs; simpl.
  - exists s. split; [done|apply self_extends_refl].
  - destruct (step_keeps op p t s Hok Hs) as (s1 & Hs1 & E1).
    destruct (IH _ _ (step_ok op p Hok) Hs1) as (s2 & Hs2 & E2).
    exists s2. split; [done|]. by eapply self_extends_trans.
Qed.

(** *** The wrapped methods of a constructed transport *)

Lemma construct_wrapped env args p o p' m rt :
  reachable p →
  construct env args p = (Return o, p') →
  (m, rt) ∈ policy_table →
  wrapped_at_construction p' o m
    (wrap_method
       (default 0 (cls_stubs (globals p') !! stub_key m)) rt (Some 600.0%Q)
       (_client_info (globals p))).
Proof.
  intros Hreach Hcons Hin. pose proof (reachable_ok _ Hreach) as [Hcls Hinst].
  destruct (construct_inv _ _ _ _ _ Hcons) as (r0 & st' & Hinit & Hg & Hn & Hr).
  destruct r0 as [[]|e]; [|by destruct Hr].
  destruct Hr as (_ & [= ->] & Hi).
  destruct (init_spec _ _ _ _ _ _ Hinit) as [_ _ _ _ Hok _ _ _ _ Hw].
  destruct (Hw eq_refl m rt Hin) as (s & Hs & Hd).
  destruct (Hd Hcls) as (d & Hwm & Hds).
  destruct (so_path _ _ (Hok Hcls) m s Hs) as (stub & Hstub & Hfor).
  rewrite Hg, Hs. simpl. exists (self st'), d, stub. simpl.
  rewrite Hi, lookup_insert_eq, Hg. done.
Qed.

Lemma wrapped_at_construction_unique p' o m wm1 wm2 :
  wrapped_at_construction p' o m wm1 →
  wrapped_at_construction p' o m wm2 → wm1 = wm2.
Proof.
  intros (s1 & d1 & ? & Hs1 & Hd1 & Hw1 & Hk1 & _)
         (s2 & d2 & ? & Hs2 & Hd2 & Hw2 & Hk2 & _).
  simplify_eq. congruence.
Qed.

Lemma policy_table_retry m :
  m ∈ [ListJobs; GetJob; DeleteJob; PauseJob; ResumeJob] →
  (m, Some {| initial := 0.1; maximum := 60.0; multiplier := 1.3;
              predicate := [ServiceUnavailable; DeadlineExceeded] |})
  ∈ policy_table.
Proof.
  intros Hm. unfold policy_table.
  repeat (apply elem_of_cons in Hm as [->|Hm]; [set_solver|]).
  by apply elem_of_nil in Hm.
Qed.

Lemma policy_table_no_retry m :
  m ∈ [CreateJob; UpdateJob; RunJob] → (m, None) ∈ policy_table.
Proof.
  intros Hm. unfold policy_table.
  repeat (apply elem_of_cons in Hm as [->|Hm]; [set_solver|]).
  by apply elem_of_nil in Hm.
Qed.

(** C1: after every successful construction, the wrapped stub of each of
    ListJobs, GetJob, DeleteJob, PauseJob and ResumeJob exists, is unique,
    and carries a retry policy with initial backoff 0.1, maximum backoff
    60 and multiplier 1.3, and a default timeout of 600. *)
Theorem C1_retry_policy_table env args p o p' m :
  reachable p →
  construct env args p = (Return o, p') →
  m ∈ [ListJobs; GetJob; DeleteJob; PauseJob; ResumeJob] →
  (∃ wm, wrapped_at_construction p' o m wm) ∧
  ∀ wm, wrapped_at_construction p' o m wm →
    ∃ retry timeout,
      default_retry wm = Some retry ∧
      (initial retry == 0.1)%Q ∧ (maximum retry == 60)%Q ∧
      (multiplier retry == 1.3)%Q ∧
      default_timeout wm = Some timeout ∧ (timeout == 600)%Q.
Proof.
  intros Hreach Hcons Hm.
  pose proof (construct_wrapped _ _ _ _ _ _ _ Hreach Hcons
                (policy_table_retry m Hm)) as Hw.
  split; [eauto|]. intros wm Hwm.
  rewrite (wrapped_at_construction_unique _ _ _ _ _ Hwm Hw). simpl.
  eexists _, _. by repeat split.
Qed.

Lemma C1_witness :
  let p := initial_program no_client_info in
  let p' := (construct env_ok args_default p).2 in
  (∃ wm, wrapped_at_construction p' 0 PauseJob wm) ∧
  ∀ wm, wrapped_at_construction p' 0 PauseJob wm →
    ∃ retry timeout,
      default_retry wm = Some retry ∧
      (initial retry == 0.1)%Q ∧ (maximum retry == 60)%Q ∧
      (multiplier retry == 1.3)%Q ∧
      default_timeout wm = Some timeout ∧ (timeout == 600)%Q.
Proof.
  apply (C1_retry_policy_table env_ok args_default
           (initial_program no_client_info) 0).
  - exists no_client_info, []. reflexivity.
  - vm_compute. reflexivity.
  - set_solver.
Defined.

(** *** Invoking a wrapped method *)

(** C2: after every successful construction, the wrapped stub of each of
    CreateJob, UpdateJob and RunJob has no retry policy and a default
    timeout of 600; invoked against a server whose first answer is a
    failure, of a retryable kind or any other, it makes that one attempt,
    waits for nothing and hands a failure to the caller: the failure of
    the server when the answer came within the timeout. *)
Theorem C2_no_retry_policy env args p o p' m :
  reachable p →
  construct env args p = (Return o, p') →
  m ∈ [CreateJob; UpdateJob; RunJob] →
  (∃ wm, wrapped_at_construction p' o m wm) ∧
  ∀ wm, wrapped_at_construction p' o m wm →
    default_retry wm = None ∧
    (∃ timeout, default_timeout wm = Some timeout ∧ (timeout == 600)%Q) ∧
    ∀ d kind server,
      (∃ failure, invoke wm (Fails d kind :: server) = (Failure failure, 1, [])) ∧
      ((d <= 600)%Q →
       invoke wm (Fails d kind :: server) = (Failure kind, 1, [])).
Proof.
  intros Hreach Hcons Hm.
  pose proof (construct_wrapped _ _ _ _ _ _ _ Hreach Hcons
                (policy_table_no_retry m Hm)) as Hw.
  split; [eauto|]. intros wm Hwm.
  rewrite (wrapped_at_construction_unique _ _ _ _ _ Hwm Hw).
  split; [done|]. split; [by eexists|].
  intros d kind server. unfold invoke. simpl.
  destruct (Qle_bool (0 + d) 600.0) eqn:Hd; simpl.
  - split; [eauto|done].
  - split; [eauto|]. intros Hle.
    assert (Qle_bool (0 + d) 600.0 = true) as Hd'; [|congruence].
    apply Qle_bool_iff. lra.
Qed.

Lemma C2_witness :
  let p := initial_program no_client_info in
  let p' := (construct env_ok args_default p).2 in
  (∃ wm, wrapped_at_construction p' 0 CreateJob wm) ∧
  ∀ wm, wrapped_at_construction p' 0 CreateJob wm →
    default_retry wm = None ∧
    (∃ timeout, default_timeout wm = Some timeout ∧ (timeout == 600)%Q) ∧
    ∀ d kind server,
      (∃ failure, invoke wm (Fails d kind :: server) = (Failure failure, 1, [])) ∧
      ((d <= 600)%Q →
       invoke wm (Fails d kind :: server) = (Failure kind, 1, [])).
Proof.
  apply (C2_no_retry_policy env_ok args_default
           (initial_program no_client_info) 0).
  - exists no_client_info, []. reflexivity.
  - vm_compute. reflexivity.
  - set_solver.
Defined.

Lemma retry_loop_attempts retry timeout elapsed delay a server :
  ∃ o n waits,
    retry_loop retry timeout elapsed delay (a :: server) = (o, S n, waits).
Proof.
  simpl. destruct (expired timeout _); [by eexists _, _, _|].
  destruct a as [d r|d kind]; [by eexists _, _, _|].
  destruct retry as [policy|]; [|by eexists _, _, _].
  destruct (if_exception_type_holds _ _); [|by eexists _, _, _].
  destruct (expired timeout _); [by eexists _, _, _|].
  destruct (retry_loop _ _ _ _ _) as [[o n] waits]. by eexists _, _, _.
Qed.

Lemma expired_false t elapsed :
  (elapsed <= t)%Q → expired (Some t) elapsed = false.
Proof.
  intros Hle. unfold expired. apply negb_false_iff. by apply Qle_bool_iff.
Qed.

(** C3: for every retry-enabled method, the predicate of the attached
    policy holds of a failure exactly when it is service-unavailable or
    deadline-exceeded.  A first failure of another kind ends the call
    after that one attempt; a first failure of one of the two kinds, with
    time left before the deadline, is followed by a wait of the initial
    backoff and a second attempt. *)
Theorem C3_retryable_failure_kinds env args p o p' m :
  reachable p →
  construct env args p = (Return o, p') →
  m ∈ [ListJobs; GetJob; DeleteJob; PauseJob; ResumeJob] →
  (∃ wm, wrapped_at_construction p' o m wm) ∧
  ∀ wm, wrapped_at_construction p' o m wm →
    ∃ policy, default_retry wm = Some policy ∧
      (∀ kind, if_exception_type_holds (predicate policy) kind = true ↔
               kind = ServiceUnavailable ∨ kind = DeadlineExceeded) ∧
      (∀ d kind server,
         kind ≠ ServiceUnavailable → kind ≠ DeadlineExceeded →
         (∃ failure,
            invoke wm (Fails d kind :: server) = (Failure failure, 1, [])) ∧
         ((d <= 600)%Q →
          invoke wm (Fails d kind :: server) = (Failure kind, 1, []))) ∧
      (∀ d kind a server,
         kind = ServiceUnavailable ∨ kind = DeadlineExceeded →
         (d + 0.1 <= 600)%Q →
         ∃ outcome n waits,
           invoke wm (Fails d kind :: a :: server)
           = (outcome, S (S n), 0.1%Q :: waits)).
Proof.
  intros Hreach Hcons Hm.
  pose proof (construct_wrapped _ _ _ _ _ _ _ Hreach Hcons
                (policy_table_retry m Hm)) as Hw.
  split; [eauto|]. intros wm Hwm.
  rewrite (wrapped_at_construction_unique _ _ _ _ _ Hwm Hw).
  eexists. split; [done|]. simpl.
  assert (∀ kind,
            if_exception_type_holds [ServiceUnavailable; DeadlineExceeded] kind
            = true ↔ kind = ServiceUnavailable ∨ kind = DeadlineExceeded)
    as Hpred.
  { intros kind. destruct kind; simpl; split; intros H; try done;
      try (by left); try (by right); by destruct H. }
  split; [done|]. split.
  - intros d kind server Hsu Hde.
    assert (if_exception_type_holds [ServiceUnavailable; DeadlineExceeded] kind
            = false) as Hno.
    { apply not_true_iff_false. rewrite Hpred. tauto. }
    unfold invoke.
    cbn [default_retry default_timeout wrap_method initial maximum multiplier
         predicate retry_loop duration].
    rewrite Hno. destruct (expired _ _) eqn:Hexp.
    + split; [eauto|]. intros Hle. rewrite expired_false in Hexp; [done|lra].
    + split; [eauto|done].
  - intros d kind a server Hkind Hd.
    apply Hpred in Hkind. unfold invoke.
    remember (a :: server) as rest eqn:Hrest.
    cbn [default_retry default_timeout wrap_method initial maximum multiplier
         predicate retry_loop duration].
    rewrite Hkind. change (capped 0.1 60.0) with 0.1%Q.
    rewrite !expired_false by lra.
    destruct (retry_loop_attempts
                (Some {| initial := 0.1; maximum := 60.0; multiplier := 1.3;
                         predicate := [ServiceUnavailable; DeadlineExceeded] |})
                (Some 600.0%Q) (0 + d + 0.1)%Q (0.1 * 1.3)%Q a server)
      as (out & n & waits & Hloop).
    rewrite <- Hrest in Hloop. rewrite Hloop. by exists out, n, waits.
Qed.

Lemma C3_witness :
  let p := initial_program no_client_info in
  let p' := (construct env_ok args_default p).2 in
  (∃ wm, wrapped_at_construction p' 0 ListJobs wm) ∧
  ∀ wm, wrapped_at_construction p' 0 ListJobs wm →
    ∃ policy, default_retry wm = Some policy ∧
      (∀ kind, if_exception_type_holds (predicate policy) kind = true ↔
               kind = ServiceUnavailable ∨ kind = DeadlineExceeded) ∧
      (∀ d kind server,
         kind ≠ ServiceUnavailable → kind ≠ DeadlineExceeded →
         (∃ failure,
            invoke wm (Fails d kind :: server) = (Failure failure, 1, [])) ∧
         ((d <= 600)%Q →
          invoke wm (Fails d kind :: server) = (Failure kind, 1, []))) ∧
      (∀ d kind a server,
         kind = ServiceUnavailable ∨ kind = DeadlineExceeded →
         (d + 0.1 <= 600)%Q →
         ∃ outcome n waits,
           invoke wm (Fails d kind :: a :: server)
           = (outcome, S (S n), 0.1%Q :: waits)).
Proof.
  apply (C3_retryable_failure_kinds env_ok args_default
           (initial_program no_client_info) 0).
  - exists no_client_info, []. reflexivity.
  - vm_compute. reflexivity.
  - set_solver.
Defined.

(** *** Credentials *)

(** The base constructor rejects two truthy credential arguments before
    it does anything but store the host, whatever the subclass. *)
Lemma base_init_duplicate `{CloudSchedulerTransport.Properties}
    env h cr cf sc q st :
  truthy_credentials cr = true → truthy_str cf = true →
  CloudSchedulerTransport.__init__ env h cr cf sc q st
  = (Raise (DuplicateCredentialArgs duplicate_message),
     {| world := world st;
        self := {| oid := oid (self st);
                   _grpc_channel := _grpc_channel (self st);
                   _host := Some (with_default_port h);
                   _credentials := _credentials (self st);
                   _wrapped_methods := _wrapped_methods (self st);
                   _stubs := _stubs (self st) |} |}).
Proof.
  intros Hcr Hcf. unfold CloudSchedulerTransport.__init__. exec.
  by rewrite Hcr, Hcf.
Qed.

(** C4, refuted as stated: with credentials, a credentials file and a
    mutual TLS endpoint but no channel, the channel factory has been
    called by the time the duplicate-credentials error is raised; and
    with credentials and the empty string as credentials file, no error
    is raised and an instance is produced. *)
Lemma C4_counterexample :
  (let '(r, p') := construct env_ok args_mtls_both
                     (initial_program no_client_info) in
   r = Raise (DuplicateCredentialArgs duplicate_message) ∧
   log (globals p')
   = [CallSslCredentials;
      CallCreateChannel "mtls.example.com:443"
        (PyObject (CallerCredentials 0)) (Some "key.json")
        (Some SslApplicationDefault)
        (Some ["https://www.googleapis.com/auth/cloud-platform"]) None]) ∧
  (let '(r, p') := construct env_ok args_empty_file
                     (initial_program no_client_info) in
   r = Return 0 ∧ is_Some (instances p' !! 0)).
Proof.
  split.
  - vm_compute. done.
  - vm_compute. split; [done|]. by eexists.
Qed.

(** C4, amended: when the credentials argument is a credentials object,
    the credentials file a non-empty path, and neither a channel nor a
    mutual TLS endpoint is given, construction raises the
    duplicate-credentials error; nothing has been called, the world is
    as it was, and the program holds no new instance. *)
Theorem C4_duplicate_credentials_rejected env args p :
  truthy_credentials (credentials args) = true →
  truthy_str (credentials_file args) = true →
  channel args = None →
  truthy_str (api_mtls_endpoint args) = false →
  construct env args p
  = (Raise (DuplicateCredentialArgs duplicate_message),
     {| globals := globals p; instances := instances p;
        next_oid := S (next_oid p) |}).
Proof.
  destruct args as [h cr cf sc ch mtls ccs q]. simpl.
  intros Hcr Hcf -> Hmtls. unfold construct, init, __init__. simpl.
  unfold mbind at 1, M_bind at 1. rewrite Hmtls. exec.
  rewrite (base_init_duplicate env h cr cf _ q _ Hcr Hcf). done.
Qed.

Lemma C4_witness :
  construct env_ok args_both (initial_program no_client_info)
  = (Raise (DuplicateCredentialArgs duplicate_message),
     {| globals := globals (initial_program no_client_info);
        instances := instances (initial_program no_client_info);
        next_oid := 1 |}).
Proof.
  apply (C4_duplicate_credentials_rejected env_ok args_both
           (initial_program no_client_info)); reflexivity.
Defined.

(** With a channel, credentials and a credentials file, the constructor
    reduces to the load of the file followed by the wrapped methods. *)
Lemma init_channel_file env args w o ch c f :
  channel args = Some ch → credentials args = PyObject c →
  credentials_file args = Some f →
  let call := CallLoadCredentialsFromFile f (seq_or (scopes args) AUTH_SCOPES)
                (quota_project_id args) in
  let w0 := {| cls_stubs := cls_stubs w; stubs_heap := stubs_heap w;
               channels_created := channels_created w;
               log := log w ++ [call]; _client_info := _client_info w |} in
  let s0 cr := {| oid := o; _grpc_channel := Some ch;
                  _host := Some (with_default_port (host args));
                  _credentials := cr; _wrapped_methods := None;
                  _stubs := None |} in
  init env args {| world := w; self := new_object o |}
  = if load_credentials_from_file_ok env f
    then
      match CloudSchedulerTransport._prep_wrapped_messages
              (H := properties env)
              {| world := w0;
                 self := s0 (Some (PyObject
                                     (FileCredentials f
                                        (seq_or (scopes args) AUTH_SCOPES)
                                        (quota_project_id args)))) |} with
      | (Return _, st1) =>
          (Return tt, {| world := world st1; self := with_stubs ∅ (self st1) |})
      | (Raise e, st1) => (Raise e, st1)
      end
    else (Raise (ExternalError call), {| world := w0; self := s0 None |}).
Proof.
  destruct args as [h cr cf sc ch' mtls ccs q]. simpl.
  intros -> -> ->. init_unfold. exec.
  destruct (load_credentials_from_file_ok env f); exec; [|done].
  by destruct (CloudSchedulerTransport._prep_wrapped_messages _) as [[[]|e] st1].
Qed.

(** C10: when a channel is supplied together with credentials and a
    credentials file, construction never raises the duplicate-credentials
    error.  The first thing it does is load the credentials from the
    file: if the loader fails, its failure is what the caller sees;
    otherwise an instance is constructed and keeps the loaded
    credentials. *)
Theorem C10_channel_masks_duplicate_credentials env args p ch c f r p' :
  channel args = Some ch →
  credentials args = PyObject c →
  credentials_file args = Some f →
  construct env args p = (r, p') →
  let call := CallLoadCredentialsFromFile f (seq_or (scopes args) AUTH_SCOPES)
                (quota_project_id args) in
  (∀ msg, r ≠ Raise (DuplicateCredentialArgs msg)) ∧
  (∃ evs, log (globals p') = log (globals p) ++ call :: evs) ∧
  (load_credentials_from_file_ok env f = false →
   r = Raise (ExternalError call)) ∧
  (load_credentials_from_file_ok env f = true →
   r = Return (next_oid p) ∧
   ∃ s, instances p' !! next_oid p = Some s ∧
        _credentials s
        = Some (PyObject (FileCredentials f (seq_or (scopes args) AUTH_SCOPES)
                            (quota_project_id args)))).
Proof.
  intros Hch Hcr Hcf Hcons. simpl.
  destruct (construct_inv _ _ _ _ _ Hcons) as (r0 & st' & Hinit & Hg & Hn & Hr).
  rewrite (init_channel_file _ _ _ _ _ _ _ Hch Hcr Hcf) in Hinit.
  simpl in Hinit. rewrite Hg.
  destruct (load_credentials_from_file_ok env f) eqn:Hload.
  - match type of Hinit with
    | context [CloudSchedulerTransport._prep_wrapped_messages ?st] =>
        destruct (prep_total env st) as (st1 & Hprep); [by eexists|]
    end.
    rewrite Hprep in Hinit. injection Hinit as <- <-.
    destruct (prep_spec _ _ _ _ Hprep)
      as (st2 & [_ _ _ Ec _ _ _ _ _ _ (evs & Hevs & _)] & _ & (d & -> & _)).
    simpl in Hevs, Ec. destruct Hr as (_ & -> & Hi). simpl.
    split; [done|]. split.
    { exists evs. by rewrite Hevs, <- app_assoc. }
    split; [done|]. intros _. split; [done|]. eexists.
    rewrite Hi, lookup_insert_eq. split; [done|]. simpl. by rewrite Ec.
  - injection Hinit as <- <-. destruct Hr as (-> & _). simpl.
    split; [done|]. split; [by exists []|]. by split.
Qed.

Lemma C10_witness :
  let p := initial_program no_client_info in
  let r := (construct env_ok args_channel_both p).1 in
  let p' := (construct env_ok args_channel_both p).2 in
  let call := CallLoadCredentialsFromFile "key.json" (Some AUTH_SCOPES) None in
  (∀ msg, r ≠ Raise (DuplicateCredentialArgs msg)) ∧
  (∃ evs, log (globals p') = log (globals p) ++ call :: evs) ∧
  (load_credentials_from_file_ok env_ok "key.json" = false →
   r = Raise (ExternalError call)) ∧
  (load_credentials_from_file_ok env_ok "key.json" = true →
   r = Return 0 ∧
   ∃ s, instances p' !! 0 = Some s ∧
        _credentials s
        = Some (PyObject (FileCredentials "key.json" (Some AUTH_SCOPES) None))).
Proof.
  apply (C10_channel_masks_duplicate_credentials env_ok args_channel_both
           (initial_program no_client_info) (SuppliedChannel 0)
           (CallerCredentials 0) "key.json").
  - reflexivity.
  - reflexivity.
  - reflexivity.
  - vm_compute. reflexivity.
Defined.

(** *** Host *)



(** *** The stub cache of an instance *)

Lemma program_eta p :
  {| globals := globals p; instances := instances p; next_oid := next_oid p |}
  = p.
Proof. by destruct p. Qed.

Lemma state_eta st : {| world := world st; self := self st |} = st.
Proof. by destruct st. Qed.




(** *** A supplied channel *)

Lemma request_post env t m p s :
  program_ok p → instances p !! t = Some s →
  ∃ r st',
    property env m {| world := globals p; self := s |} = (r, st') ∧
    request env t m p
    = (Some r, {| globals := world st';
                  instances := <[t := self st']> (instances p);
                  next_oid := next_oid p |}) ∧
    property_post m {| world := globals p; self := s |} r st'.
Proof.
  intros Hok Hs. unfold request, call. rewrite Hs.
  destruct (property env m _) as [r st'] eqn:Hc.
  exists r, st'. split; [done|]. split; [done|]. by apply (property_spec env).
Qed.



(** *** Wire paths *)

(** C8: every stub a request for method M returns, cached or built on
    the spot, is bound to the wire path
    "/google.cloud.scheduler.v1.CloudScheduler/M", to the serializer of
    the request message of M and to the deserializer of its response
    message; a stub built on the spot is a new multicallable on the
    channel of the instance. *)
Theorem C8_stub_wire_path env p t m x p' :
  reachable p →
  request env t m p = (Some (Return x), p') →
  ∃ stub,
    stubs_heap (globals p') !! x = Some stub ∧
    stub_path stub
    = "/google.cloud.scheduler.v1.CloudScheduler/" +:+ method_name m ∧
    request_serializer stub
    = {| codec_message := "cloudscheduler." +:+ method_name m +:+ "Request";
         codec_kind := serialize |} ∧
    response_deserializer stub
    = match m with
      | ListJobs => {| codec_message := "cloudscheduler.ListJobsResponse";
                       codec_kind := deserialize |}
      | DeleteJob => {| codec_message := "empty.Empty";
                        codec_kind := FromString |}
      | GetJob | CreateJob | UpdateJob | PauseJob | ResumeJob | RunJob =>
          {| codec_message := "job.Job"; codec_kind := deserialize |}
      end ∧
    ∀ s d, instances p !! t = Some s → _stubs s = Some d →
           d !! stub_key m = None →
           x = length (stubs_heap (globals p)) ∧
           stubs_heap (globals p') = stubs_heap (globals p) ++ [stub] ∧
           ∃ s', instances p' !! t = Some s' ∧
                 _grpc_channel s' = Some (stub_channel stub).
Proof.
  intros Hreach Hreq. pose proof (reachable_ok _ Hreach) as Hok.
  destruct (call_inv _ _ _ _ _ Hreq) as (s & st' & Hs & Hc & ->).
  destruct (property_spec _ _ _ _ _ Hc) as [E R _ O _ Hmiss].
  specialize (R x eq_refl).
  destruct (visible_ok _ (O (instance_state_ok _ _ _ Hok Hs))) as [_ _ Hpath].
  destruct (Hpath m x R) as (stub & Hstub & Hp & Hrq & Hrs).
  exists stub. simpl. split; [done|]. split; [by rewrite Hp; destruct m|].
  split; [by rewrite Hrq; destruct m|]. split; [by rewrite Hrs; destruct m|].
  intros s0 d Hs0 Hd Hnone. simplify_eq.
  destruct (Hmiss (ltac:(by unfold visible_stubs; simpl; rewrite Hd)) x eq_refl)
    as (c & Hch & -> & Hheap).
  rewrite Hheap in Hstub. simpl in Hstub, Hheap.
  rewrite lookup_app_r in Hstub by lia. rewrite Nat.sub_diag in Hstub.
  injection Hstub as <-.
  split; [done|]. split; [done|]. eexists.
  rewrite lookup_insert_eq. by split.
Qed.

Lemma C8_witness :
  let p := (construct env_ok (args_channel (SuppliedChannel 7))
              (initial_program no_client_info)).2 in
  let p' := (request env_ok 0 RunJob p).2 in
  ∃ stub,
    stubs_heap (globals p') !! 8 = Some stub ∧
    stub_path stub
    = "/google.cloud.scheduler.v1.CloudScheduler/" +:+ method_name RunJob ∧
    request_serializer stub
    = {| codec_message := "cloudscheduler." +:+ method_name RunJob +:+ "Request";
         codec_kind := serialize |} ∧
    response_deserializer stub
    = {| codec_message := "job.Job"; codec_kind := deserialize |} ∧
    ∀ s d, instances p !! 0 = Some s → _stubs s = Some d →
           d !! stub_key RunJob = None →
           8 = length (stubs_heap (globals p)) ∧
           stubs_heap (globals p') = stubs_heap (globals p) ++ [stub] ∧
           ∃ s', instances p' !! 0 = Some s' ∧
                 _grpc_channel s' = Some (stub_channel stub).
Proof.
  apply (C8_stub_wire_path env_ok
           (construct env_ok (args_channel (SuppliedChannel 7))
              (initial_program no_client_info)).2 0 RunJob 8).
  - exists no_client_info,
      [Construct env_ok (args_channel (SuppliedChannel 7))]. reflexivity.
  - vm_compute. reflexivity.
Defined.

(** *** The stub cache across construction *)

(** C5, evaluated on a failing run: a first transport is constructed on
    channel 0 and asked once for the ListJobs stub, then a second
    transport is constructed on channel 1.  The constructor of the first
    transport builds the eight stubs into the dictionary of the class and
    leaves the instance with an empty one, so the request builds the
    ListJobs stub of that instance a second time, and the stub returned
    is not the one its wrapped method was made from.  The second
    transport finds the dictionary of the class filled: it builds
    nothing, and its wrapped ListJobs method wraps the stub of the first
    transport, bound to channel 0. *)
Theorem C5_stub_rebuilt_and_shared :
  let path := "/google.cloud.scheduler.v1.CloudScheduler/ListJobs" in
  let p0 := initial_program no_client_info in
  let p1 := (construct env_ok (args_channel (SuppliedChannel 0)) p0).2 in
  let p2 := (request env_ok 0 ListJobs p1).2 in
  let p3 := (construct env_ok (args_channel (SuppliedChannel 1)) p2).2 in
  (construct env_ok (args_channel (SuppliedChannel 0)) p0).1 = Return 0 ∧
  stubs_built 0 path (log (globals p1)) = 1 ∧
  cls_stubs (globals p1) !! "list_jobs" = Some 0 ∧
  instance_attr p1 0 _stubs = Some ∅ ∧
  (request env_ok 0 ListJobs p1).1 = Some (Return 8) ∧
  stubs_built 0 path (log (globals p2)) = 2 ∧
  (func <$> wrapped_entry p2 0 0) = Some 0 ∧
  wrapped_entry p2 0 8 = None ∧
  (construct env_ok (args_channel (SuppliedChannel 1)) p2).1 = Return 1 ∧
  stubs_built 1 path (log (globals p3)) = 0 ∧
  instance_attr p3 1 _grpc_channel = Some (SuppliedChannel 1) ∧
  (func <$> wrapped_entry p3 1 0) = Some 0 ∧
  (stub_path <$> stubs_heap (globals p3) !! 0) = Some path ∧
  (stub_channel <$> stubs_heap (globals p3) !! 0) = Some (SuppliedChannel 0).
Proof. vm_compute. repeat split. Qed.

(** * Further results *)

(** ** What one read of a property does *)

Lemma grpc_channel_lazy env st h cr :
  _grpc_channel (self st) = None →
  _host (self st) = Some h → _credentials (self st) = Some cr →
  grpc_channel env st
  = if create_channel_ok env h
    then (Return (CreatedChannel (channels_created (world st))),
          opened (logged (lazy_create_call h cr) st))
    else (Raise (ExternalError (lazy_create_call h cr)),
          logged (lazy_create_call h cr) st).
Proof.
  destruct st as [w s]. simpl. intros Hc Hh Hcr.
  unfold grpc_channel, create_channel, grpc_helpers_async_create_channel,
    lazy_create_call, opened, logged.
  exec. rewrite Hc. exec. rewrite Hh. exec. rewrite Hcr. exec.
  destruct (create_channel_ok env h); exec; by rewrite ?Hh, ?Hcr.
Qed.

Lemma creates_nil : creates [] = 0.
Proof. done. Qed.

Lemma known_path m :
  existsb (λ m', String.eqb (expected_path m) (expected_path m')) methods = true.
Proof. by destruct m. Qed.

Lemma install_trace c key path rq rs st :
  log (world (install_stub c key path rq rs st))
  = log (world st) ++ [CallUnaryUnary (oid (self st)) c path
                         (length (stubs_heap (world st)))] ∧
  (is_Some (_stubs (self st)) →
   cls_stubs (world (install_stub c key path rq rs st)) = cls_stubs (world st)).
Proof.
  destruct st as [w s]. unfold install_stub. simpl.
  destruct (_stubs s); simpl; split; try done.
Qed.

Lemma property_trace_spec env m st r st' :
  attrs_set (self st) →
  property env m st = (r, st') → property_trace env st r st'.
Proof.
  intros (h & cr & Hh & Hcolon & Hcr). rewrite property_eq.
  destruct (visible_stubs st !! stub_key m) as [x|] eqn:Hx.
  { rewrite (stub_property_hit _ _ _ _ _ _ _ Hx). intros [= <- <-].
    split.
    - exists []. rewrite app_nil_r. split; [done|]. split; [constructor|].
      rewrite creates_nil. split; [lia|]. intros; lia.
    - done.
    - eauto.
    - done.
    - by left.
    - intros; by left. }
  rewrite (stub_property_miss _ _ _ _ _ _ Hx).
  destruct (_grpc_channel (self st)) as [c|] eqn:Hc.
  - rewrite (grpc_channel_cached env st c Hc). intros [= <- <-].
    destruct (install_trace c (stub_key m) (expected_path m)
                (expected_request_serializer m)
                (expected_response_deserializer m) st) as [Hlog Hcls].
    split.
    + eexists. split; [done|]. split.
      { apply Forall_singleton. split; [exact (known_path m)|done]. }
      unfold needs_channel. rewrite install_channel, Hc. simpl.
      split; [done|]. intros; lia.
    + done.
    + eauto.
    + done.
    + right. eexists. apply install_heap.
    + intros x _. left. by rewrite install_channel.
  - rewrite (grpc_channel_lazy env st h cr Hc Hh Hcr).
    destruct (create_channel_ok env h) eqn:Hok; intros [= <- <-].
    + set (st1 := opened (logged (lazy_create_call h cr) st)).
      destruct (install_trace (CreatedChannel (channels_created (world st)))
                  (stub_key m) (expected_path m)
                  (expected_request_serializer m)
                  (expected_response_deserializer m) st1) as [Hlog Hcls].
      split.
      * eexists. split.
        { rewrite Hlog. unfold st1. simpl. by rewrite <- app_assoc. }
        split.
        { apply Forall_cons. split.
          - split; [|done]. simpl. by rewrite Hcolon.
          - apply Forall_singleton. split; [exact (known_path m)|done]. }
        unfold needs_channel. rewrite install_channel, Hc. simpl.
        split; [done|]. intros; lia.
      * done.
      * eauto.
      * intros Hs. by rewrite Hcls.
      * right. eexists. rewrite install_heap. done.
      * intros x _. right. by rewrite install_channel.
    + split.
      * exists [lazy_create_call h cr]. split; [done|]. split.
        { apply Forall_singleton. split; [|done]. simpl. by rewrite Hcolon. }
        unfold needs_channel. rewrite Hc. simpl. split; [done|]. done.
      * intros e [= <-]. exists h, cr. by repeat split.
      * intros Hall. rewrite (Hall h Hh) in Hok. done.
      * done.
      * by left.
      * done.
Qed.

Lemma creates_app evs1 evs2 : creates (evs1 ++ evs2) = creates evs1 + creates evs2.
Proof. unfold creates. by rewrite List.filter_app, length_app. Qed.

Lemma attrs_set_extends st st' :
  extends st st' → attrs_set (self st) → attrs_set (self st').
Proof.
  intros E (h & cr & Hh & Hc & Hcr). exists h, cr.
  by rewrite (ext_host _ _ E), (ext_cred _ _ E).
Qed.

Lemma item_trace env m retry timeout st r st' :
  attrs_set (self st) →
  CloudSchedulerTransport.item (property env m) retry timeout st = (r, st') →
  effect_trace env st r st'.
Proof.
  intros Hattrs. unfold CloudSchedulerTransport.item. exec.
  destruct (property env m st) as [[k|e] st1] eqn:H1;
    destruct (property_trace_spec env m st _ st1 Hattrs H1)
      as [Hlog Hraise Htotal _ _ _];
    destruct (property_spec env m st _ st1 H1) as [_ R1 _ _ _ _].
  - destruct (property env m st1) as [r2 st2] eqn:H2.
    destruct (property_spec env m st1 _ st2 H2) as [_ _ _ _ Hit _].
    destruct (Hit k (R1 k eq_refl)) as [-> ->]. exec. intros [= <- <-].
    split.
    + destruct Hlog as (evs & ? & ? & ? & Hret). exists evs.
      repeat split; try done. intros x _. by apply (Hret k).
    + done.
    + eauto.
  - intros [= <- <-]. split.
    + destruct Hlog as (evs & ? & ? & ? & Hret). exists evs.
      by repeat split.
    + intros e' [= <-]. destruct (Hraise e eq_refl)
        as (h & cr & ? & ? & ? & ? & ? & Hl & _). exists h, cr.
      repeat split; try done. by rewrite Hl, last_snoc.
    + intros Hall. by destruct (Htotal Hall).
Qed.

Lemma dict_display_trace env timeout tbl acc st r st' :
  attrs_set (self st) →
  dict_display
    (map (λ p, CloudSchedulerTransport.item (property env p.1) p.2 timeout) tbl)
    acc st = (r, st') →
  effect_trace env st r st'.
Proof.
  revert acc st. induction tbl as [|[m rt] tbl IH]; intros acc st Hattrs; simpl.
  - intros [= <- <-]. split.
    + exists []. rewrite app_nil_r. split; [done|]. split; [constructor|].
      rewrite creates_nil. split; [lia|]. intros; lia.
    + done.
    + eauto.
  - unfold mbind at 1, M_bind at 1.
    destruct (CloudSchedulerTransport.item (property env m) rt timeout st)
      as [[kv|e] st1] eqn:Hi;
      pose proof (item_trace env m rt timeout st _ st1 Hattrs Hi) as T1;
      destruct (item_spec env m rt timeout st _ st1 Hi) as (E1 & _ & _).
    + intros Hrest.
      pose proof (IH _ _ (attrs_set_extends _ _ E1 Hattrs) Hrest) as T2.
      destruct T1 as [(evs1 & L1 & F1 & C1 & R1) _ _].
      destruct T2 as [(evs2 & L2 & F2 & C2 & R2) Hraise2 Htotal2].
      specialize (R1 kv eq_refl). split.
      * exists (evs1 ++ evs2). rewrite L2, L1, app_assoc. split; [done|].
        split; [by apply Forall_app|]. rewrite creates_app.
        split; [lia|]. intros x Hx. specialize (R2 x Hx). lia.
      * intros e He.
        destruct (Hraise2 e He) as (h & cr & Hh & Hcr & ? & ? & ?).
        exists h, cr. by rewrite <- (ext_host _ _ E1), <- (ext_cred _ _ E1).
      * intros Hall. apply Htotal2. intros h Hh. apply Hall.
        by rewrite <- (ext_host _ _ E1).
    + intros [= <- <-]. destruct T1 as [Hlog Hraise Htotal]. split.
      * destruct Hlog as (evs & ? & ? & ? & _). exists evs. by repeat split.
      * intros e' [= <-]. by apply Hraise.
      * intros Hall. by destruct (Htotal Hall).
Qed.

Lemma prep_trace env st r st' :
  attrs_set (self st) →
  CloudSchedulerTransport._prep_wrapped_messages (H := properties env) st
  = (r, st') →
  effect_trace env st r st'.
Proof.
  intros Hattrs. unfold CloudSchedulerTransport._prep_wrapped_messages.
  unfold mbind at 1, M_bind at 1.
  match goal with |- context [dict_display ?l ∅ st] =>
    change l with (map (λ p, CloudSchedulerTransport.item (property env p.1)
                               p.2 (Some 600.0%Q)) policy_table)
  end.
  destruct (dict_display _ ∅ st) as [[d|e] st1] eqn:Hd;
    destruct (dict_display_trace _ _ _ _ _ _ _ Hattrs Hd)
      as [(evs & L & F & C & R) Hraise Htotal].
  - exec. intros [= <- <-]. split.
    + exists evs. simpl. repeat split; try done. intros x _.
      specialize (R d eq_refl). by unfold needs_channel in *.
    + done.
    + eauto.
  - intros [= <- <-]. split.
    + exists evs. by repeat split.
    + intros e' [= <-]. by apply Hraise.
    + intros Hall. by destruct (Htotal Hall).
Qed.

(** ** What one construction does *)

Lemma default_port_colon h :
  contains_colon (if contains_colon h then h else h +:+ ":443") = true.
Proof. apply with_default_port_colon. Qed.

Lemma truthy_seq_or (x : option (list string)) :
  truthy_seq (seq_or x AUTH_SCOPES) = true.
Proof. by destruct x as [[|? ?]|]. Qed.

Lemma init_structure_trace env args w o r st' :
  init env args {| world := w; self := new_object o |} = (r, st') →
  ∃ st0 evs,
    log (world st0) = log w ++ evs ∧
    stubs_heap (world st0) = stubs_heap w ∧
    cls_stubs (world st0) = cls_stubs w ∧
    Forall (λ e, well_formed_call e = true ∧ is_unary_unary e = false) evs ∧
    (is_Some (channel args) →
     Forall (λ e, is_load_credentials e = true) evs) ∧
    ((∃ e, r = Raise e ∧ st' = st0 ∧ early_exception env args evs e ∧ (creates evs ≤ 1)%nat) ∨
     ((creates evs + needs_channel st0 ≤ 1)%nat ∧
      _host (self st0) = Some (with_default_port (effective_host args)) ∧
      _credentials (self st0) = Some (resolved_credentials args) ∧
      ∃ r1 st1,
        CloudSchedulerTransport._prep_wrapped_messages (H := properties env) st0
        = (r1, st1) ∧
        match r1 with
        | Return _ => r = Return tt ∧
                      st' = {| world := world st1;
                               self := with_stubs ∅ (self st1) |}
        | Raise e => r = Raise e ∧ st' = st1
        end)).
Proof.
  destruct args as [h cr cf sc ch mtls ccs q].
  unfold effective_host, resolved_credentials, early_exception, duplicate_message.
  init_unfold. init_cases.
  all: unfold with_default_port.
  all: match goal with
       | Hp : CloudSchedulerTransport._prep_wrapped_messages ?st = _ |- _ =>
           intros [= <- <-]; exists st
       | |- (_, ?s) = _ → _ => intros [= <- <-]; exists s
       end.
  all: eexists.
  all: split;
    [ simpl; rewrite <- ?app_assoc;
      first [reflexivity | symmetry; apply app_nil_r] |].
  all: split; [done|].
  all: split; [done|].
  all: split;
    [ repeat (apply Forall_cons; split;
              [split; [|done]; cbn [well_formed_call];
               rewrite ?default_port_colon, ?truthy_seq_or; done|]);
      by apply Forall_nil |].
  all: split;
    [ first [ by intros [? [=]]
            | intros _; repeat (constructor; [done|]); constructor ] |].
  all: match goal with
       | Hp : CloudSchedulerTransport._prep_wrapped_messages _ = _ |- _ =>
           right; split; [unfold needs_channel, creates; simpl; lia|];
           split; [solve_host|]; split; [done|]; do 2 eexists;
           split; [exact Hp|]; simpl; by split
       | |- _ =>
           left; eexists; split; [done|]; split; [done|];
           split; [first [by left
                         | right; eexists; split; [done|]; split; [done|];
                           split; [simpl; done|done]]
                  |unfold creates; simpl; lia]
       end.
Qed.

Lemma last_app_Some {A} (l evs : list A) x :
  last evs = Some x → last (l ++ evs) = Some x.
Proof.
  intros [evs' ->]%last_Some. by rewrite app_assoc, last_snoc.
Qed.

Lemma construct_trace_spec env args p r p' :
  construct env args p = (r, p') → construct_trace env args p r p'.
Proof.
  intros Hcons.
  destruct (construct_inv _ _ _ _ _ Hcons) as (r0 & st' & Hinit & Hg & Hn & Hr).
  destruct (init_structure_trace _ _ _ _ _ _ Hinit)
    as (st0 & evs0 & L0 & _ & _ & F0 & Hauth & Hcase).
  assert (Forall (λ e, well_formed_call e = true) evs0) as F0'.
  { eapply Forall_impl; [done|]. by intros ? [? ?]. }
  destruct Hcase as [(e & -> & -> & Hearly & Hc)
                    |(Hc & Hh & Hcr & r1 & st1 & Hprep & Hr1)].
  - destruct Hr as [-> Hi]. split; rewrite ?Hg.
    + exists evs0. split; [done|]. split; [done|]. split; [done|].
      intros Hch. eapply Forall_impl; [by apply Hauth|].
      intros c Hload. simpl in Hload. by rewrite Hload.
    + intros e' [= <-]. destruct Hearly as [?|(call & ? & ? & ? & Hlast)];
        [by left|right]. exists call. rewrite L0.
      split; [done|]. split; [done|]. by apply last_app_Some.
    + intros Hnodup Hall. exfalso.
      destruct Hearly as [(_ & ? & ? & ?)|(call & _ & _ & Hret & _)];
        [by apply Hnodup|]. by rewrite Hall in Hret.
    + done.
  - assert (attrs_set (self st0)) as Hattrs.
    { eexists _, _. split; [done|]. split; [apply with_default_port_colon|done]. }
    destruct (prep_trace _ _ _ _ Hattrs Hprep)
      as [(evs & L & F & C & R) Hraise Htotal].
    destruct (prep_spec _ _ _ _ Hprep) as (st2 & E & _ & Hst2).
    assert (world st' = world st1) as Hw.
    { destruct r1 as [[]|e]; by destruct Hr1 as [_ ->]. }
    split; rewrite ?Hg, ?Hw.
    + exists (evs0 ++ evs). rewrite L, L0, app_assoc. split; [done|].
      split. { apply Forall_app. split; [done|].
               eapply Forall_impl; [done|]. by intros ? [? ?]. }
      rewrite creates_app. split; [lia|]. intros Hch.
      destruct (init_spec _ _ _ _ _ _ Hinit) as [_ (evsI & LI & FI) _ _ _ _ _ _ _ _].
      rewrite Hw, L, L0, <- app_assoc in LI. apply app_inv_head in LI as <-.
      apply Forall_app in FI as [_ FI]; [|done].
      apply Forall_app. split.
      { eapply Forall_impl; [by apply Hauth|].
        intros c Hload. simpl in Hload. by rewrite Hload. }
      eapply Forall_impl; [apply Forall_and; split; [exact F|exact FI]|].
      intros c [[_ Hc1] Hne]. simpl in Hne. rewrite Hne in Hc1.
      simpl in Hc1. rewrite Hc1. apply orb_true_r.
    + intros e He. right. destruct r1 as [[]|e1].
      { destruct Hr1 as [-> _]. by destruct Hr as (_ & -> & _). }
      destruct Hr1 as [-> _], Hr as [-> _]. injection He as <-.
      destruct (Hraise e1 eq_refl) as (h & cr & ? & ? & ? & -> & Hlast).
      eexists. split; [done|]. split; [done|]. done.
    + intros _ Hall.
      destruct Htotal as [[] ->].
      { intros h _. apply (Hall (lazy_create_call h PyNone)). }
      destruct Hr1 as [-> _]. by destruct Hr as (_ & -> & _).
    + intros o ->. destruct r1 as [[]|e1].
      2:{ destruct Hr1 as [-> _]. by destruct Hr as [? _]. }
      destruct Hr1 as [-> ->], Hr as (_ & [= <-] & ->), Hst2 as (d & -> & _).
      eexists. rewrite lookup_insert_eq. split; [done|]. simpl.
      by rewrite (ext_host _ _ E), (ext_cred _ _ E).
Qed.

(** ** Instances in a running program *)

Lemma construct_attrs_ok env args p :
  attrs_ok p → attrs_ok (construct env args p).2.
Proof.
  intros Hok. destruct (construct env args p) as [r p'] eqn:Hcons. simpl.
  destruct (construct_trace_spec _ _ _ _ _ Hcons) as [_ _ _ Hattrs].
  destruct (construct_inv _ _ _ _ _ Hcons) as (r0 & st' & _ & _ & _ & Hr).
  destruct r0 as [[]|e].
  - destruct Hr as (_ & -> & Hi). intros t s. rewrite Hi, lookup_insert.
    case_decide as Ht; [|by apply Hok]. subst t. intros [= <-].
    destruct (Hattrs _ eq_refl) as (s & Hs & Hh & Hcr).
    rewrite Hi, lookup_insert_eq in Hs. injection Hs as <-.
    eexists _, _. split; [done|]. split; [apply with_default_port_colon|done].
  - destruct Hr as [_ Hi]. intros t s. rewrite Hi. apply Hok.
Qed.

Lemma call_attrs_ok {A} t (c : M A) p :
  well_behaved c → attrs_ok p → attrs_ok (call t c p).2.
Proof.
  intros Hwb Hok. destruct (call t c p) as [[r|] p'] eqn:Hcall.
  2:{ unfold call in Hcall. destruct (instances p !! t); [|by simplify_eq].
      by destruct (c _). }
  destruct (call_inv _ _ _ _ _ Hcall) as (s & st' & Hs & Hc & ->). simpl.
  destruct (Hwb _ _ _ Hc) as [E _].
  intros t' s'. simpl. rewrite lookup_insert. case_decide; [|by apply Hok].
  intros [= <-]. apply (attrs_set_extends _ _ E). simpl. by eapply Hok.
Qed.

Lemma run_attrs_ok ops p : attrs_ok p → attrs_ok (run ops p).
Proof.
  revert p. induction ops as [|op ops IH]; intros p Hok; simpl; [done|].
  apply IH. destruct op as [env args|env t m|env t]; simpl.
  - by apply construct_attrs_ok.
  - by apply call_attrs_ok; [apply property_well_behaved|].
  - by apply call_attrs_ok; [apply grpc_channel_well_behaved|].
Qed.

Lemma reachable_attrs_ok p : reachable p → attrs_ok p.
Proof.
  intros (ci & ops & ->). apply run_attrs_ok. intros t s Hs.
  simpl in Hs. by rewrite lookup_empty in Hs.
Qed.

(** X1: an instance that has a channel keeps it for good.  Whatever the
    program does next, reading [grpc_channel] returns that channel and
    changes nothing, and every stub request on the instance returns,
    calls no channel factory and yields a stub bound to that channel. *)
Theorem instance_channel_is_kept p t s c ops :
  reachable p →
  instances p !! t = Some s →
  _grpc_channel s = Some c →
  let q := run ops p in
  (∃ s', instances q !! t = Some s' ∧ _grpc_channel s' = Some c) ∧
  (∀ env, call t (grpc_channel env) q = (Some (Return c), q)) ∧
  (∀ env m, ∃ x q',
     request env t m q = (Some (Return x), q') ∧
     (∃ evs, log (globals q') = log (globals q) ++ evs ∧
             Forall (λ e, is_create_channel e = false) evs) ∧
     (∃ stub, stubs_heap (globals q') !! x = Some stub ∧
              stub_channel stub = c)).
Proof.
  intros Hreach Hs Hc q. pose proof (reachable_ok _ Hreach) as Hok.
  destruct (run_keeps ops p t s Hok Hs) as (s' & Hs' & E). fold q in Hs'.
  pose proof (run_ok ops p Hok) as Hokq. fold q in Hokq.
  pose proof (se_channel _ _ E c Hc) as Hc'.
  split; [eauto|]. split.
  - intros env. unfold call. rewrite Hs'.
    rewrite (grpc_channel_cached env _ c) by done. simpl.
    rewrite insert_id by done. by rewrite program_eta.
  - intros env m.
    destruct (request_post env t m q s' Hokq Hs')
      as (r & st2 & Hprop & -> & [E2 R2 T2 O2 _ _]).
    destruct (T2 (ltac:(by eexists))) as [x ->].
    exists x. eexists. split; [done|]. simpl.
    destruct (ext_log _ _ E2) as (evs2 & Hevs2 & Fevs2). simpl in *.
    split; [exists evs2; split; [done|]; apply Fevs2; eauto|].
    destruct (O2 (instance_state_ok _ _ _ Hokq Hs')) as [_ Hinst].
    destruct (po_inst _ Hokq _ _ Hs') as (_ & d & Hd & _).
    destruct (se_stubs _ _ (extends_self _ _ E2) d Hd) as (d' & Hd' & _).
    simpl in Hd'. destruct (Hinst d' Hd') as [_ Hon].
    specialize (R2 x eq_refl). unfold visible_stubs in R2. rewrite Hd' in R2.
    destruct (Hon _ _ R2) as (stub & Hstub & Hch).
    exists stub. split; [done|].
    rewrite (ext_keep _ _ E2 c Hc') in Hch. by injection Hch as <-.
Qed.

Lemma instance_channel_is_kept_witness :
  let p := (construct env_ok args_mtls (initial_program no_client_info)).2 in
  let c := CreatedChannel 0 in
  let q := run [Request env_ok 0 GetJob; Construct env_ok args_default] p in
  (∃ s', instances q !! 0 = Some s' ∧ _grpc_channel s' = Some c) ∧
  (∀ env, call 0 (grpc_channel env) q = (Some (Return c), q)) ∧
  (∀ env m, ∃ x q',
     request env 0 m q = (Some (Return x), q') ∧
     (∃ evs, log (globals q') = log (globals q) ++ evs ∧
             Forall (λ e, is_create_channel e = false) evs) ∧
     (∃ stub, stubs_heap (globals q') !! x = Some stub ∧
              stub_channel stub = c)).
Proof.
  intros p c.
  apply (instance_channel_is_kept p 0
           (default (new_object 0) (instances p !! 0)) c
           [Request env_ok 0 GetJob; Construct env_ok args_default]).
  - exists no_client_info, [Construct env_ok args_mtls]. reflexivity.
  - vm_compute. reflexivity.
  - vm_compute. reflexivity.
Defined.

(** X2: a stub request is local to its instance.  It leaves the class
    dictionary, every other instance and the object counter as they are,
    and it builds at most one stub. *)
Theorem request_is_local env t m p s :
  reachable p →
  instances p !! t = Some s →
  let p' := (request env t m p).2 in
  cls_stubs (globals p') = cls_stubs (globals p) ∧
  (∀ t', t' ≠ t → instances p' !! t' = instances p !! t') ∧
  next_oid p' = next_oid p ∧
  _client_info (globals p') = _client_info (globals p) ∧
  (stubs_heap (globals p') = stubs_heap (globals p) ∨
   ∃ stub, stubs_heap (globals p') = stubs_heap (globals p) ++ [stub]).
Proof.
  intros Hreach Hs. pose proof (reachable_ok _ Hreach) as Hok.
  pose proof (reachable_attrs_ok _ Hreach _ _ Hs) as Hattrs.
  destruct (request_post env t m p s Hok Hs)
    as (r & st' & Hprop & Hreq & [E _ _ _ _ _]).
  rewrite Hreq. simpl.
  destruct (property_trace_spec env m {| world := globals p; self := s |}
              r st' Hattrs Hprop)
    as [_ _ _ Hcls Hheap _]. simpl in *.
  destruct (po_inst _ Hok _ _ Hs) as (_ & d & Hd & _).
  split; [apply Hcls; by rewrite Hd|].
  split; [intros t' Ht'; by rewrite lookup_insert_ne|].
  split; [done|]. split; [|done]. apply (ext_info _ _ E).
Qed.

Lemma request_is_local_witness :
  let p := (construct env_ok args_default (initial_program no_client_info)).2 in
  let p' := (request env_ok 0 GetJob p).2 in
  cls_stubs (globals p') = cls_stubs (globals p) ∧
  (∀ t', t' ≠ 0 → instances p' !! t' = instances p !! t') ∧
  next_oid p' = next_oid p ∧
  _client_info (globals p') = _client_info (globals p) ∧
  (stubs_heap (globals p') = stubs_heap (globals p) ∨
   ∃ stub, stubs_heap (globals p') = stubs_heap (globals p) ++ [stub]).
Proof.
  intros p.
  apply (request_is_local env_ok 0 GetJob p
           (default (new_object 0) (instances p !! 0))).
  - exists no_client_info, [Construct env_ok args_default]. reflexivity.
  - vm_compute. reflexivity.
Defined.

(** X3: a stub request on an instance returns whenever the channel
    factory returns for the host of the instance.  When it raises, the
    instance had no channel, the factory failed, and the exception is the
    error of that factory call, made for the host and credentials of the
    instance with the default scopes; nothing but the log has changed, so
    the request can be made again. *)
Theorem request_outcome env t m p s :
  reachable p →
  instances p !! t = Some s →
  ∃ h cr r p',
    _host s = Some h ∧ _credentials s = Some cr ∧
    request env t m p = (Some r, p') ∧
    (create_channel_ok env h = true → ∃ x, r = Return x) ∧
    (∀ e, r = Raise e →
       _grpc_channel s = None ∧ create_channel_ok env h = false ∧
       e = ExternalError (lazy_create_call h cr) ∧
       log (globals p') = log (globals p) ++ [lazy_create_call h cr] ∧
       stubs_heap (globals p') = stubs_heap (globals p) ∧
       cls_stubs (globals p') = cls_stubs (globals p) ∧
       instances p' = instances p).
Proof.
  intros Hreach Hs. pose proof (reachable_ok _ Hreach) as Hok.
  pose proof (reachable_attrs_ok _ Hreach _ _ Hs) as Hattrs.
  destruct (request_post env t m p s Hok Hs)
    as (r & st' & Hprop & Hreq & _).
  destruct (property_trace_spec env m {| world := globals p; self := s |}
              r st' Hattrs Hprop)
    as [_ Hraise Htotal _ _ _]. simpl in *.
  destruct Hattrs as (h & cr & Hh & _ & Hcr).
  exists h, cr, r. eexists. split; [done|]. split; [done|].
  split; [exact Hreq|]. split.
  - intros Hcreate. apply Htotal. intros h' Hh'.
    rewrite Hh in Hh'. by injection Hh' as <-.
  - intros e ->. destruct (Hraise e eq_refl)
      as (h' & cr' & Hh' & Hcr' & Hc & Hfail & -> & Hlog & Hheap & Hcls & Hself).
    rewrite Hh in Hh'. injection Hh' as <-.
    rewrite Hcr in Hcr'. injection Hcr' as <-.
    simpl. rewrite Hself. simpl. rewrite insert_id by done. done.
Qed.

Lemma request_outcome_witness :
  let p := (construct env_ok args_default (initial_program no_client_info)).2 in
  ∃ h cr r p',
    _host (default (new_object 0) (instances p !! 0)) = Some h ∧
    _credentials (default (new_object 0) (instances p !! 0)) = Some cr ∧
    request env_ok 0 RunJob p = (Some r, p') ∧
    (create_channel_ok env_ok h = true → ∃ x, r = Return x) ∧
    (∀ e, r = Raise e →
       _grpc_channel (default (new_object 0) (instances p !! 0)) = None ∧
       create_channel_ok env_ok h = false ∧
       e = ExternalError (lazy_create_call h cr) ∧
       log (globals p') = log (globals p) ++ [lazy_create_call h cr] ∧
       stubs_heap (globals p') = stubs_heap (globals p) ∧
       cls_stubs (globals p') = cls_stubs (globals p) ∧
       instances p' = instances p).
Proof.
  intros p.
  apply (request_outcome env_ok 0 RunJob p
           (default (new_object 0) (instances p !! 0))).
  - exists no_client_info, [Construct env_ok args_default]. reflexivity.
  - vm_compute. reflexivity.
Defined.



(** ** When the wrapped methods cannot be prepared *)

Lemma item_hit env m rt timeout st :
  is_Some (visible_stubs st !! stub_key m) →
  ∃ kv, CloudSchedulerTransport.item (property env m) rt timeout st
        = (Return kv, st).
Proof.
  intros [x Hx]. unfold CloudSchedulerTransport.item.
  unfold mbind at 1, M_bind at 1. rewrite property_eq.
  rewrite (stub_property_hit _ _ _ _ _ _ _ Hx).
  unfold mbind at 1, M_bind at 1.
  rewrite (stub_property_hit _ _ _ _ _ _ _ Hx). exec. by eexists.
Qed.

Lemma dict_display_hit env timeout tbl acc st :
  (∀ m, is_Some (visible_stubs st !! stub_key m)) →
  ∃ d, dict_display
         (map (λ p, CloudSchedulerTransport.item (property env p.1) p.2 timeout)
            tbl) acc st = (Return d, st).
Proof.
  intros Hall. revert acc. induction tbl as [|[m rt] tbl IH]; intros acc; simpl.
  - by eexists.
  - unfold mbind at 1, M_bind at 1.
    destruct (item_hit env m rt timeout st (Hall m)) as [kv ->]. apply IH.
Qed.

Lemma prep_hit env st :
  (∀ m, is_Some (visible_stubs st !! stub_key m)) →
  ∃ d, CloudSchedulerTransport._prep_wrapped_messages (H := properties env) st
       = (Return tt, {| world := world st; self := with_wrapped d (self st) |}).
Proof.
  intros Hall. unfold CloudSchedulerTransport._prep_wrapped_messages.
  unfold mbind at 1, M_bind at 1.
  match goal with |- context [dict_display ?l ∅ st] =>
    change l with (map (λ p, CloudSchedulerTransport.item (property env p.1)
                               p.2 (Some 600.0%Q)) policy_table)
  end.
  destruct (dict_display_hit env (Some 600.0%Q) policy_table ∅ st Hall)
    as [d ->].
  exec. by exists d.
Qed.

Lemma item_raise_frame env m rt timeout st e st' :
  attrs_set (self st) →
  CloudSchedulerTransport.item (property env m) rt timeout st = (Raise e, st') →
  stubs_heap (world st') = stubs_heap (world st) ∧
  cls_stubs (world st') = cls_stubs (world st) ∧
  self st' = self st.
Proof.
  intros Hattrs. unfold CloudSchedulerTransport.item.
  unfold mbind at 1, M_bind at 1.
  destruct (property env m st) as [[k|e1] st1] eqn:H1.
  - destruct (property_spec env m st _ st1 H1) as [_ R1 _ _ _ _].
    unfold mbind at 1, M_bind at 1.
    destruct (property env m st1) as [r2 st2] eqn:H2.
    destruct (property_spec env m st1 _ st2 H2) as [_ _ _ _ Hit _].
    destruct (Hit k (R1 k eq_refl)) as [-> ->]. by exec.
  - intros [= <- <-].
    destruct (property_trace_spec env m st _ st1 Hattrs H1)
      as [_ Hraise _ _ _ _].
    destruct (Hraise e1 eq_refl) as (h & cr & _ & _ & _ & _ & _ & _ & ? & ? & ?).
    done.
Qed.

Lemma item_return_frame env m rt timeout st kv st' :
  CloudSchedulerTransport.item (property env m) rt timeout st = (Return kv, st') →
  st' = st ∨ is_Some (_grpc_channel (self st')).
Proof.
  unfold CloudSchedulerTransport.item.
  unfold mbind at 1, M_bind at 1.
  destruct (property env m st) as [[k|e1] st1] eqn:H1; [|done].
  destruct (property_spec env m st _ st1 H1) as [_ R1 _ _ Hit1 Hmiss].
  unfold mbind at 1, M_bind at 1.
  destruct (property env m st1) as [r2 st2] eqn:H2.
  destruct (property_spec env m st1 _ st2 H2) as [_ _ _ _ Hit _].
  destruct (Hit k (R1 k eq_refl)) as [-> ->]. exec. intros [= _ <-].
  destruct (visible_stubs st !! stub_key m) as [x|] eqn:Hx.
  - left. by destruct (Hit1 x eq_refl) as [_ ->].
  - right. destruct (Hmiss eq_refl k eq_refl) as (c & Hc & _). eauto.
Qed.

Lemma dict_display_raise_frame env timeout tbl acc st e st' :
  attrs_set (self st) →
  dict_display
    (map (λ p, CloudSchedulerTransport.item (property env p.1) p.2 timeout) tbl)
    acc st = (Raise e, st') →
  stubs_heap (world st') = stubs_heap (world st) ∧
  cls_stubs (world st') = cls_stubs (world st) ∧
  self st' = self st.
Proof.
  intros Hattrs. revert acc.
  induction tbl as [|[m rt] tbl IH]; intros acc; simpl; [done|].
  unfold mbind at 1, M_bind at 1.
  destruct (CloudSchedulerTransport.item (property env m) rt timeout st)
    as [[kv|e1] st1] eqn:Hi.
  - destruct (item_return_frame _ _ _ _ _ _ _ Hi) as [->|Hc]; [apply IH|].
    destruct (dict_display_total env timeout tbl (<[kv.1:=kv.2]> acc) st1 Hc)
      as (d & st2 & ->). done.
  - intros [= <- <-]. by eapply item_raise_frame.
Qed.

Lemma prep_raise_frame env st e st' :
  attrs_set (self st) →
  CloudSchedulerTransport._prep_wrapped_messages (H := properties env) st
  = (Raise e, st') →
  stubs_heap (world st') = stubs_heap (world st) ∧
  cls_stubs (world st') = cls_stubs (world st) ∧
  self st' = self st.
Proof.
  intros Hattrs. unfold CloudSchedulerTransport._prep_wrapped_messages.
  unfold mbind at 1, M_bind at 1.
  match goal with |- context [dict_display ?l ∅ st] =>
    change l with (map (λ p, CloudSchedulerTransport.item (property env p.1)
                               p.2 (Some 600.0%Q)) policy_table)
  end.
  destruct (dict_display _ ∅ st) as [[d|e1] st1] eqn:Hd; [by exec|].
  intros [= <- <-]. by eapply dict_display_raise_frame.
Qed.

Lemma construct_raise_frame env args p e p' :
  construct env args p = (Raise e, p') →
  stubs_heap (globals p') = stubs_heap (globals p) ∧
  cls_stubs (globals p') = cls_stubs (globals p) ∧
  instances p' = instances p.
Proof.
  intros Hcons.
  destruct (construct_inv _ _ _ _ _ Hcons) as (r0 & st' & Hinit & Hg & _ & Hr).
  destruct r0 as [[]|e0]; [by destruct Hr as (_ & [=] & _)|].
  destruct Hr as [_ Hi]. rewrite Hg.
  destruct (init_structure_trace _ _ _ _ _ _ Hinit)
    as (st0 & evs & _ & Bh & Bc & _ & _ & Hcase).
  destruct Hcase as [(e1 & _ & -> & _)|(_ & Hh & Hcr & r1 & st1 & Hprep & Hr1)];
    [done|].
  destruct r1 as [[]|e1]; [by destruct Hr1|]. destruct Hr1 as [_ ->].
  assert (attrs_set (self st0)) as Hattrs.
  { eexists _, _. split; [done|]. split; [apply with_default_port_colon|done]. }
  destruct (prep_raise_frame env st0 e1 st1 Hattrs Hprep) as (-> & -> & _).
  done.
Qed.

(** ** Construction, as a caller sees it *)

(** X5: a construction that raises adds no instance, builds no stub
    and leaves the dictionary of the class as it was.  It raises either
    the duplicate-credentials error, only when no channel is given and
    both [credentials] and [credentials_file] are truthy, or the error of
    a collaborator: the call that failed is the last one logged. *)
Theorem construct_failure_modes env args p e p' :
  construct env args p = (Raise e, p') →
  instances p' = instances p ∧
  stubs_heap (globals p') = stubs_heap (globals p) ∧
  cls_stubs (globals p') = cls_stubs (globals p) ∧
  ((e = DuplicateCredentialArgs duplicate_message ∧ channel args = None ∧
    truthy_credentials (credentials args) = true ∧
    truthy_str (credentials_file args) = true) ∨
   (∃ call, e = ExternalError call ∧ external_returns env args call = false ∧
            last (log (globals p')) = Some call)).
Proof.
  intros Hcons.
  destruct (construct_trace_spec _ _ _ _ _ Hcons) as [_ Hraise _ _].
  destruct (construct_raise_frame _ _ _ _ _ Hcons) as (Hheap & Hcls & Hi).
  split; [done|]. split; [done|]. split; [done|]. by apply Hraise.
Qed.

Lemma construct_failure_modes_witness :
  let p := initial_program no_client_info in
  let e := DuplicateCredentialArgs duplicate_message in
  let p' := (construct env_ok args_both p).2 in
  instances p' = instances p ∧
  stubs_heap (globals p') = stubs_heap (globals p) ∧
  cls_stubs (globals p') = cls_stubs (globals p) ∧
  ((e = DuplicateCredentialArgs duplicate_message ∧
    channel args_both = None ∧
    truthy_credentials (credentials args_both) = true ∧
    truthy_str (credentials_file args_both) = true) ∨
   (∃ call, e = ExternalError call ∧
            external_returns env_ok args_both call = false ∧
            last (log (globals p')) = Some call)).
Proof.
  intros p e p'. apply (construct_failure_modes env_ok args_both p e p').
  vm_compute. reflexivity.
Defined.

(** X6: construction returns the new object whenever the credentials
    arguments are no duplicate and every collaborator returns. *)
Theorem construct_returns env args p :
  ¬ (channel args = None ∧ truthy_credentials (credentials args) = true ∧
     truthy_str (credentials_file args) = true) →
  (∀ call, external_returns env args call = true) →
  ∃ p', construct env args p = (Return (next_oid p), p') ∧
        is_Some (instances p' !! next_oid p) ∧
        next_oid p' = S (next_oid p).
Proof.
  intros Hnodup Hall. destruct (construct env args p) as [r p'] eqn:Hcons.
  destruct (construct_trace_spec _ _ _ _ _ Hcons) as [_ _ Htotal Hattrs].
  pose proof (Htotal Hnodup Hall) as ->. exists p'. split; [done|].
  destruct (Hattrs _ eq_refl) as (s & Hs & _). split; [eauto|].
  by destruct (construct_inv _ _ _ _ _ Hcons) as (? & ? & _ & _ & ? & _).
Qed.

Lemma construct_returns_witness :
  let p := initial_program no_client_info in
  ∃ p', construct env_ok args_mtls p = (Return (next_oid p), p') ∧
        is_Some (instances p' !! next_oid p) ∧
        next_oid p' = S (next_oid p).
Proof.
  intros p. apply (construct_returns env_ok args_mtls p).
  - intros (_ & H & _). vm_compute in H. discriminate H.
  - intros call. destruct call; reflexivity.
Defined.


(** X8: an instance keeps the credentials its constructor resolved,
    whatever the program does afterwards: those loaded from the file when
    one is given; otherwise [False] with a channel, the ambient credentials
    when [credentials] is [None], and the [credentials] argument itself in
    the remaining case. *)
Theorem construct_attributes env args p o p' ops :
  reachable p →
  construct env args p = (Return o, p') →
  ∃ s, instances (run ops p') !! o = Some s ∧ oid s = o ∧
       _credentials s = Some (resolved_credentials args).
Proof.
  intros Hreach Hcons. pose proof (reachable_ok _ Hreach) as Hok.
  destruct (construct_trace_spec _ _ _ _ _ Hcons) as [_ _ _ Hattrs].
  destruct (Hattrs o eq_refl) as (s & Hs & Hh & Hcr).
  assert (program_ok p') as Hok'.
  { replace p' with (construct env args p).2 by (by rewrite Hcons).
    by apply construct_ok. }
  destruct (run_keeps ops p' o s Hok' Hs) as (s' & Hs' & [Eo Eh Ec _ _ _]).
  exists s'. split; [done|]. rewrite Eo, Ec. split; [|done].
  destruct (construct_inv _ _ _ _ _ Hcons) as (r0 & st' & Hinit & _ & _ & Hr).
  destruct r0 as [[]|e0]; [|by destruct Hr].
  destruct Hr as (_ & [= Heq] & Hi).
  rewrite Hi, Heq, lookup_insert_eq in Hs. injection Hs as <-.
  destruct (init_spec _ _ _ _ _ _ Hinit) as [_ _ _ _ _ Ho _ _ _ _].
  rewrite Heq. by apply Ho.
Qed.

Lemma construct_attributes_witness :
  let p := initial_program no_client_info in
  let ops := [Request env_ok 0 GetJob; Construct env_ok args_default] in
  ∃ s, instances (run ops (construct env_ok args_mtls p).2) !! 0 = Some s ∧
       oid s = 0 ∧
       _credentials s = Some (resolved_credentials args_mtls).
Proof.
  intros p ops.
  apply (construct_attributes env_ok args_mtls p 0
           (construct env_ok args_mtls p).2 ops).
  - exists no_client_info, []. reflexivity.
  - vm_compute. reflexivity.
Defined.

(** *** The log of a program *)






(** ** The abstract transport *)

(** X10: the base class cannot be instantiated.  With the properties of
    the abstract class its constructor always raises, and leaves
    [_wrapped_methods] unassigned: the duplicate-credentials error when
    both credentials arguments are truthy, else the error of the loader
    that failed, else [NotImplementedError] from the first property
    read. *)
Theorem abstract_transport_raises env host cr cf sc q st :
  ∃ e st',
    @CloudSchedulerTransport.__init__ env CloudSchedulerTransport.abstract
      host cr cf sc q st = (Raise e, st') ∧
    _wrapped_methods (self st') = _wrapped_methods (self st) ∧
    _host (self st') = Some (with_default_port host) ∧
    stubs_heap (world st') = stubs_heap (world st) ∧
    cls_stubs (world st') = cls_stubs (world st) ∧
    if truthy_credentials cr && truthy_str cf
    then e = DuplicateCredentialArgs duplicate_message ∧
         _credentials (self st') = _credentials (self st)
    else if credentials_obtained env cr cf
         then e = NotImplementedError ∧ is_Some (_credentials (self st'))
         else ∃ call, e = ExternalError call ∧
                      last (log (world st')) = Some call ∧
                      _credentials (self st') = _credentials (self st).
Proof.
  destruct st as [w s].
  unfold CloudSchedulerTransport.__init__, credentials_obtained,
    with_default_port, load_credentials_from_file, auth_default,
    CloudSchedulerTransport._prep_wrapped_messages.
  destruct cr as [| |c], cf as [[|a f]|]; exec;
    repeat match goal with
      | |- context [load_credentials_from_file_ok ?e ?f] =>
          destruct (load_credentials_from_file_ok e f)
      | |- context [auth_default_ok ?e] => destruct (auth_default_ok e)
      end; exec;
    eexists _, _; (split; [reflexivity|]); simpl; repeat (split; [done|]);
    first [ done | by eauto
          | eexists; split; [done|]; split; [|done]; by rewrite last_snoc ].
Qed.

(** ** What a supplied channel makes irrelevant *)

Lemma agree_bind {A B} (c c' : M A) (k k' : A → M B) :
  agree c c' → (∀ x, agree (k x) (k' x)) → agree (c ≫= k) (c' ≫= k').
Proof.
  intros Hc Hk st Hst. unfold mbind, M_bind.
  destruct (Hc st Hst) as [<- Hst'].
  destruct (c st) as [[x|e] st1]; [by apply Hk|done].
Qed.

Lemma agree_same {A} (c : M A) :
  (∀ st, has_channel st → has_channel (c st).2) → agree c c.
Proof. intros Hc st Hst. split; [done|by apply Hc]. Qed.

Lemma property_agree env env' m : agree (property env m) (property env' m).
Proof.
  intros st [c Hc]. rewrite !property_eq.
  destruct (visible_stubs st !! stub_key m) as [x|] eqn:Hx.
  - rewrite !(stub_property_hit _ _ _ _ _ _ _ Hx). split; [done|]. by exists c.
  - rewrite !(stub_property_miss _ _ _ _ _ _ Hx).
    rewrite !(grpc_channel_cached _ st c Hc). split; [done|]. simpl.
    exists c. by rewrite install_channel.
Qed.

Lemma item_agree env env' m rt timeout :
  agree (CloudSchedulerTransport.item (property env m) rt timeout)
        (CloudSchedulerTransport.item (property env' m) rt timeout).
Proof.
  unfold CloudSchedulerTransport.item.
  apply agree_bind; [apply property_agree|]. intros k.
  apply agree_bind; [apply property_agree|]. intros f.
  by apply agree_same.
Qed.

Lemma dict_display_agree {V} (items items' : list (M (nat * V))) acc :
  Forall2 agree items items' →
  agree (dict_display items acc) (dict_display items' acc).
Proof.
  intros Hitems. revert acc.
  induction Hitems as [|i i' items items' Hi _ IH]; intros acc; simpl.
  - by apply agree_same.
  - apply agree_bind; [done|]. intros kv. apply IH.
Qed.

Lemma prep_agree env env' :
  agree (CloudSchedulerTransport._prep_wrapped_messages (H := properties env))
        (CloudSchedulerTransport._prep_wrapped_messages (H := properties env')).
Proof.
  unfold CloudSchedulerTransport._prep_wrapped_messages.
  apply agree_bind.
  - apply dict_display_agree.
    repeat first
      [ apply Forall2_nil_2
      | apply Forall2_cons_2;
        [ first [ apply (item_agree env env' ListJobs)
                | apply (item_agree env env' GetJob)
                | apply (item_agree env env' CreateJob)
                | apply (item_agree env env' UpdateJob)
                | apply (item_agree env env' DeleteJob)
                | apply (item_agree env env' PauseJob)
                | apply (item_agree env env' ResumeJob)
                | apply (item_agree env env' RunJob) ] | ] ].
  - intros d. apply agree_same. intros st Hst. exact Hst.
Qed.

Lemma base_init_agree env env' host cf sc q :
  (∀ f, cf = Some f →
        load_credentials_from_file_ok env f
        = load_credentials_from_file_ok env' f) →
  agree (CloudSchedulerTransport.__init__ env (H := properties env)
           host PyFalse cf sc q)
        (CloudSchedulerTransport.__init__ env' (H := properties env')
           host PyFalse cf sc q).
Proof.
  intros Hload. unfold CloudSchedulerTransport.__init__.
  apply agree_bind; [by apply agree_same|]. intros []. simpl.
  apply agree_bind.
  - destruct cf as [f|]; [|by apply agree_same].
    unfold load_credentials_from_file. rewrite (Hload f eq_refl).
    apply agree_same. intros st Hst. exec.
    by destruct (load_credentials_from_file_ok env' f).
  - intros cr. apply agree_bind; [by apply agree_same|]. intros [].
    apply prep_agree.
Qed.

Lemma init_channel_eq env args c st :
  channel args = Some c →
  init env args st
  = (CloudSchedulerTransport.__init__ env (H := properties env)
       (host args) PyFalse (credentials_file args)
       (seq_or (scopes args) AUTH_SCOPES) (quota_project_id args)
     ≫= λ _, set_stubs ∅)
      {| world := world st;
         self := {| oid := oid (self st); _grpc_channel := Some c;
                    _host := _host (self st);
                    _credentials := _credentials (self st);
                    _wrapped_methods := _wrapped_methods (self st);
                    _stubs := _stubs (self st) |} |}.
Proof.
  destruct args as [h cr cf sc ch mtls ccs q]. simpl. intros ->.
  destruct st as [w s]. reflexivity.
Qed.

Lemma init_channel_agree env env' args args' c st :
  channel args = Some c → channel args' = Some c →
  host args = host args' →
  credentials_file args = credentials_file args' →
  seq_or (scopes args) AUTH_SCOPES = seq_or (scopes args') AUTH_SCOPES →
  quota_project_id args = quota_project_id args' →
  (∀ f, credentials_file args = Some f →
        load_credentials_from_file_ok env f
        = load_credentials_from_file_ok env' f) →
  init env args st = init env' args' st.
Proof.
  intros Hc Hc' Hh Hcf Hsc Hq Hload.
  rewrite (init_channel_eq env args c st Hc).
  rewrite (init_channel_eq env' args' c st Hc').
  rewrite <- Hh, <- Hcf, <- Hsc, <- Hq.
  match goal with |- _ ?st1 = _ =>
    assert (has_channel st1) as Hst1 by (by exists c)
  end.
  eapply agree_bind; [by apply base_init_agree| |exact Hst1].
  intros []. by apply agree_same.
Qed.

(** X11: with a channel supplied, construction does not depend on
    [credentials], [api_mtls_endpoint] or [client_cert_source], nor on
    whether the channel factory, the SSL credentials or [auth.default]
    would return: two constructions that agree on the channel, the host,
    the credentials file, the effective scopes and the quota project do
    the same to the program. *)
Theorem channel_makes_arguments_irrelevant env env' args args' c p :
  channel args = Some c → channel args' = Some c →
  host args = host args' →
  credentials_file args = credentials_file args' →
  seq_or (scopes args) AUTH_SCOPES = seq_or (scopes args') AUTH_SCOPES →
  quota_project_id args = quota_project_id args' →
  (∀ f, credentials_file args = Some f →
        load_credentials_from_file_ok env f
        = load_credentials_from_file_ok env' f) →
  construct env args p = construct env' args' p.
Proof.
  intros Hc Hc' Hh Hcf Hsc Hq Hload. unfold construct.
  by rewrite (init_channel_agree env env' args args' c _ Hc Hc' Hh Hcf Hsc Hq
                Hload).
Qed.

Lemma channel_makes_arguments_irrelevant_witness :
  construct env_ok (args_channel (SuppliedChannel 0))
    (initial_program no_client_info)
  = construct env_only_files args_channel_mtls (initial_program no_client_info).
Proof.
  apply (channel_makes_arguments_irrelevant env_ok env_only_files
           (args_channel (SuppliedChannel 0)) args_channel_mtls
           (SuppliedChannel 0));
    reflexivity.
Defined.

(** X12: with a channel supplied, construction returns whenever the
    credentials file, if one is given, can be loaded. *)
Theorem construct_with_channel_returns env args c p :
  channel args = Some c →
  (∀ f, credentials_file args = Some f →
        load_credentials_from_file_ok env f = true) →
  ∃ p', construct env args p = (Return (next_oid p), p') ∧
        ∃ s, instances p' !! next_oid p = Some s ∧
             _grpc_channel s = Some c.
Proof.
  intros Hc Hload.
  set (args' := {| host := host args; credentials := credentials args;
                   credentials_file := credentials_file args;
                   scopes := scopes args; channel := channel args;
                   api_mtls_endpoint := api_mtls_endpoint args;
                   client_cert_source := None;
                   quota_project_id := quota_project_id args |}).
  destruct (construct env args p) as [r p'] eqn:Hcons.
  pose proof Hcons as Hcons'. unfold construct in Hcons'.
  rewrite (init_channel_agree env env_ok args args' c) in Hcons'; [|done..].
  fold (construct env_ok args' p) in Hcons'.
  destruct (construct_trace_spec _ _ _ _ _ Hcons') as [_ _ Htotal _].
  assert (r = Return (next_oid p)) as ->.
  { apply Htotal.
    - simpl. rewrite Hc. by intros [[=] _].
    - by intros []. }
  exists p'. split; [done|].
  destruct (construct_inv _ _ _ _ _ Hcons) as (r0 & st' & Hinit & _ & _ & Hr).
  destruct r0 as [[]|e0]; [|by destruct Hr].
  destruct Hr as (_ & _ & ->). rewrite lookup_insert_eq. eexists.
  split; [done|].
  destruct (init_spec _ _ _ _ _ _ Hinit) as [_ _ _ _ _ _ _ _ Hch _].
  by apply Hch.
Qed.

Lemma construct_with_channel_returns_witness :
  let p := initial_program no_client_info in
  ∃ p', construct env_only_files args_channel_both p
        = (Return (next_oid p), p') ∧
        ∃ s, instances p' !! next_oid p = Some s ∧
             _grpc_channel s = Some (SuppliedChannel 0).
Proof.
  intros p.
  apply (construct_with_channel_returns env_only_files args_channel_both
           (SuppliedChannel 0) p); [reflexivity|].
  intros f _. reflexivity.
Defined.

(** ** The wrapped methods of an instance *)

Lemma stored_dom ci timeout tbl ks acc :
  length tbl = length ks →
  dom (stored ci timeout tbl ks acc) = list_to_set ks ∪ dom acc.
Proof.
  revert ks acc. induction tbl as [|[m rt] tbl IH]; intros [|k ks] acc Hlen;
    simplify_eq/=.
  - by rewrite union_empty_l_L.
  - rewrite IH by done. rewrite dom_insert_L, union_assoc_L.
    by rewrite (union_comm_L (list_to_set ks) {[k]}).
Qed.

Lemma stored_elem ci timeout tbl ks x wm :
  NoDup ks → length tbl = length ks →
  stored ci timeout tbl ks ∅ !! x = Some wm →
  ∃ i m rt, tbl !! i = Some (m, rt) ∧ ks !! i = Some x ∧
            wm = wrap_method x rt timeout ci.
Proof.
  intros Hnd Hlen Hx. destruct (decide (x ∈ ks)) as [Hin|Hnin].
  - apply list_elem_of_lookup in Hin as [i Hi].
    destruct (lookup_lt_is_Some_2 tbl i) as [[m rt] Ht].
    { rewrite Hlen. by eapply lookup_lt_Some. }
    rewrite (stored_lookup ci timeout tbl ks ∅ i m rt x Hnd Ht Hi) in Hx.
    injection Hx as <-. by exists i, m, rt.
  - rewrite stored_other in Hx by done. by rewrite lookup_empty in Hx.
Qed.

Lemma prep_stored env st st' :
  state_ok st →
  CloudSchedulerTransport._prep_wrapped_messages (H := properties env) st
  = (Return tt, st') →
  ∃ st1 ks,
    extends st st1 ∧
    Forall2 (λ p s, visible_stubs st1 !! stub_key p.1 = Some s)
      policy_table ks ∧
    NoDup ks ∧
    st' = {| world := world st1;
             self := with_wrapped
                       (stored (_client_info (world st)) (Some 600.0%Q)
                          policy_table ks ∅) (self st1) |}.
Proof.
  intros Hok. unfold CloudSchedulerTransport._prep_wrapped_messages.
  unfold mbind at 1, M_bind at 1.
  match goal with |- context [dict_display ?l ∅ st] =>
    change l with (map (λ p, CloudSchedulerTransport.item (property env p.1)
                               p.2 (Some 600.0%Q)) policy_table)
  end.
  destruct (dict_display _ ∅ st) as [[d|e] st1] eqn:Hd;
    destruct (dict_display_spec _ _ _ _ _ _ _ Hd) as (E & O & R).
  - exec. intros [= <-]. destruct (R d eq_refl) as (ks & Hks & ->).
    exists st1, ks. split; [done|]. split; [done|]. split; [|done].
    eapply keys_NoDup; [apply visible_ok; by apply O| |done].
    by compute_done.
  - by intros [= <- <-].
Qed.

Lemma run_client_info ops p :
  _client_info (globals (run ops p)) = _client_info (globals p).
Proof.
  revert p. induction ops as [|op ops IH]; intros p; simpl; [done|].
  rewrite IH. destruct op as [env args|env t m|env t]; simpl.
  - destruct (construct env args p) as [r p'] eqn:Hcons. simpl.
    destruct (construct_inv _ _ _ _ _ Hcons) as (r0 & st' & Hinit & -> & _).
    by destruct (init_spec _ _ _ _ _ _ Hinit) as [_ _ _ -> _ _ _ _ _ _].
  - unfold request, call. destruct (instances p !! t) as [s|]; [|done].
    destruct (property env m _) as [r st'] eqn:Hrun. simpl.
    destruct (property_well_behaved env m _ _ _ Hrun) as [E _].
    apply (ext_info _ _ E).
  - unfold call. destruct (instances p !! t) as [s|]; [|done].
    destruct (grpc_channel env _) as [r st'] eqn:Hrun. simpl.
    destruct (grpc_channel_well_behaved env _ _ _ Hrun) as [E _].
    apply (ext_info _ _ E).
Qed.

(** X13: the wrapped methods of a constructed transport.  The dictionary
    has exactly eight entries, one for each method, under the stub the
    property of the method returned.  Each entry wraps that stub with the
    retry policy of the method, a timeout of 600 seconds and the client
    info of the module, which is the same for every transport of the
    program.  The dictionary is never replaced afterwards. *)
Theorem wrapped_methods_table ci ops0 env args o p' :
  let p := run ops0 (initial_program ci) in
  construct env args p = (Return o, p') →
  ∃ d : gmap nat WrappedMethod,
    size d = 8 ∧
    (∀ x wm, d !! x = Some wm →
       ∃ m rt, (m, rt) ∈ policy_table ∧
               cls_stubs (globals p') !! stub_key m = Some x ∧
               wm = wrap_method x rt (Some 600.0%Q) ci) ∧
    ∀ ops, ∃ s, instances (run ops p') !! o = Some s ∧
                _wrapped_methods s = Some d.
Proof.
  intros p Hcons.
  assert (reachable p) as Hreach by (by exists ci, ops0).
  pose proof (reachable_ok _ Hreach) as Hok.
  assert (_client_info (globals p) = ci) as Hci.
  { unfold p. by rewrite run_client_info. }
  destruct (construct_inv _ _ _ _ _ Hcons) as (r0 & st' & Hinit & Hg & _ & Hr).
  destruct r0 as [[]|e0]; [|by destruct Hr].
  destruct Hr as (_ & [= ->] & Hi).
  assert (∀ ops, ∃ s, instances (run ops p') !! next_oid p = Some s ∧
                      _wrapped_methods s = _wrapped_methods (self st'))
    as Hkeep.
  { intros ops.
    assert (program_ok p') as Hok'.
    { replace p' with (construct env args p).2 by (by rewrite Hcons).
      by apply construct_ok. }
    assert (instances p' !! next_oid p = Some (self st')) as Hs
      by (rewrite Hi; apply lookup_insert_eq).
    destruct (run_keeps ops p' _ _ Hok' Hs) as (s' & Hs' & [_ _ _ Ew _ _]).
    by exists s'. }
  destruct (init_structure _ _ _ _ _ _ Hinit)
    as (st0 & [Bc Bh Bi Bo Bs Bw Bch _] & Hcase).
  destruct Hcase as [(e & [=] & _)|(_ & r1 & st1 & Hprep & Hr1)].
  destruct r1 as [[]|e1]; [|by destruct Hr1].
  destruct Hr1 as [_ ->].
  assert (state_ok st0) as Hok0.
  { split; [rewrite Bh, Bc; apply Hok|]. by rewrite Bs. }
  destruct (prep_stored env st0 st1 Hok0 Hprep)
    as (st2 & ks & E & Hks & Hnd & ->).
  assert (visible_stubs st2 = cls_stubs (globals p')) as Hvis.
  { rewrite Hg. simpl. unfold visible_stubs.
    destruct (_stubs (self st2)) eqn:Hs2; [|done].
    assert (is_Some (_stubs (self st0))) as [? Hx]
      by (apply (ext_stubs _ _ E); eauto).
    by rewrite Bs in Hx. }
  assert (length policy_table = length ks) as Hlen
    by (by eapply Forall2_length).
  rewrite Bi, Hci in *.
  exists (stored ci (Some 600.0%Q) policy_table ks ∅). split; [|split].
  - rewrite <- size_dom, stored_dom, dom_empty_L, union_empty_r_L by done.
    rewrite size_list_to_set by done. by rewrite <- Hlen.
  - intros x wm Hx.
    destruct (stored_elem _ _ _ _ _ _ Hnd Hlen Hx) as (i & m & rt & Ht & Hk & ->).
    exists m, rt. split; [by eapply list_elem_of_lookup_2|]. split; [|done].
    rewrite <- Hvis.
    destruct (Forall2_lookup_l _ _ _ _ _ Hks Ht) as (s & Hs & Hv).
    rewrite Hk in Hs. by injection Hs as <-.
  - exact Hkeep.
Qed.

Lemma wrapped_methods_table_witness :
  let p := run [Construct env_ok args_default]
             (initial_program no_client_info) in
  let p' := (construct env_ok (args_channel (SuppliedChannel 3)) p).2 in
  ∃ d : gmap nat WrappedMethod,
    size d = 8 ∧
    (∀ x wm, d !! x = Some wm →
       ∃ m rt, (m, rt) ∈ policy_table ∧
               cls_stubs (globals p') !! stub_key m = Some x ∧
               wm = wrap_method x rt (Some 600.0%Q) no_client_info) ∧
    ∀ ops, ∃ s, instances (run ops p') !! 1 = Some s ∧
                _wrapped_methods s = Some d.
Proof.
  intros p p'.
  apply (wrapped_methods_table no_client_info [Construct env_ok args_default]
           env_ok (args_channel (SuppliedChannel 3)) 1 p').
  vm_compute. reflexivity.
Defined.

(** ** The dictionary of the class *)

Lemma init_plain_no_channel env args w o st' :
  cls_complete w →
  channel args = None → truthy_str (api_mtls_endpoint args) = false →
  init env args {| world := w; self := new_object o |} = (Return tt, st') →
  _grpc_channel (self st') = None.
Proof.
  intros Hall. destruct args as [h cr cf sc ch mtls ccs q]. simpl.
  intros -> Hmtls. init_unfold.
  cbn [host credentials credentials_file scopes channel api_mtls_endpoint
       client_cert_source quota_project_id].
  rewrite Hmtls. init_cases.
  all: try (by intros [=]).
  all: match goal with
       | Hp : CloudSchedulerTransport._prep_wrapped_messages ?st = _ |- _ =>
           let d := fresh "d" in
           let Hd := fresh "Hd" in
           destruct (prep_hit env st) as [d Hd];
             [intros m; apply Hall|];
           rewrite Hd in Hp; injection Hp as <-
       end.
  all: by intros [= <-].
Qed.

Lemma construct_cls_complete env args p r p' :
  cls_complete (globals p) →
  construct env args p = (r, p') →
  stubs_heap (globals p') = stubs_heap (globals p) ∧
  cls_stubs (globals p') = cls_stubs (globals p) ∧
  (channel args = None → truthy_str (api_mtls_endpoint args) = false →
   ∀ o, r = Return o →
        ∃ s, instances p' !! o = Some s ∧ _grpc_channel s = None).
Proof.
  intros Hall Hcons.
  destruct (construct_inv _ _ _ _ _ Hcons) as (r0 & st' & Hinit & Hg & _ & Hr).
  assert (stubs_heap (world st') = stubs_heap (globals p) ∧
          cls_stubs (world st') = cls_stubs (globals p)) as [Hheap Hcls].
  { destruct (init_structure _ _ _ _ _ _ Hinit)
      as (st0 & [Bc Bh Bi Bo Bs Bw Bch _] & Hcase).
    destruct Hcase as [(e & -> & ->)|(_ & r1 & st1 & Hprep & Hr1)]; [done|].
    destruct (prep_hit env st0) as [d Hd].
    { intros m. unfold visible_stubs. rewrite Bs, Bc. apply Hall. }
    rewrite Hd in Hprep. injection Hprep as <- <-. by destruct Hr1 as [_ ->]. }
  rewrite Hg. split; [done|]. split; [done|].
  intros Hch Hmtls o ->. destruct r0 as [[]|e0]; [|by destruct Hr].
  destruct Hr as (_ & [= ->] & Hi). rewrite Hi, lookup_insert_eq.
  eexists. split; [done|]. by eapply init_plain_no_channel.
Qed.

Lemma call_cls {A} t (c : M A) p :
  (∀ s st', instances p !! t = Some s →
     (c {| world := globals p; self := s |}).2 = st' →
     cls_stubs (world st') = cls_stubs (globals p)) →
  cls_stubs (globals (call t c p).2) = cls_stubs (globals p).
Proof.
  intros Hc. unfold call. destruct (instances p !! t) as [s|] eqn:Hs; [|done].
  specialize (Hc s _ eq_refl eq_refl). by destruct (c _).
Qed.

Lemma step_cls_complete op p :
  program_ok p → attrs_ok p → cls_complete (globals p) →
  cls_stubs (globals (step op p)) = cls_stubs (globals p).
Proof.
  intros Hok Hattrs Hall. destruct op as [env args|env t m|env t]; simpl.
  - destruct (construct env args p) as [r p'] eqn:Hcons.
    by destruct (construct_cls_complete _ _ _ _ _ Hall Hcons) as (_ & ? & _).
  - apply call_cls. intros s st' Hs <-.
    destruct (property env m _) as [r st'] eqn:Hrun.
    destruct (property_trace_spec env m {| world := globals p; self := s |}
                r st' (Hattrs _ _ Hs) Hrun) as [_ _ _ Hcls _ _].
    destruct (po_inst _ Hok _ _ Hs) as (_ & d & Hd & _).
    apply Hcls. simpl. by rewrite Hd.
  - apply call_cls. intros s st' Hs <-.
    destruct (grpc_channel env _) as [r st'] eqn:Hrun.
    destruct (grpc_channel_spec _ _ _ _ Hrun) as [F _]. apply (gcf_cls _ _ F).
Qed.

Lemma run_cls_complete ops p :
  program_ok p → attrs_ok p → cls_complete (globals p) →
  cls_stubs (globals (run ops p)) = cls_stubs (globals p).
Proof.
  revert p. induction ops as [|op ops IH]; intros p Hok Hattrs Hall; simpl;
    [done|].
  pose proof (step_cls_complete op p Hok Hattrs Hall) as Hstep.
  rewrite IH, Hstep; [done|by apply step_ok| |].
  - destruct op as [env args|env t m|env t]; simpl.
    + by apply construct_attrs_ok.
    + by apply call_attrs_ok; [apply property_well_behaved|].
    + by apply call_attrs_ok; [apply grpc_channel_well_behaved|].
  - intros m. rewrite Hstep. apply Hall.
Qed.

Lemma construct_return_complete env args p o p' :
  construct env args p = (Return o, p') → cls_complete (globals p').
Proof.
  intros Hcons m.
  destruct (construct_inv _ _ _ _ _ Hcons) as (r0 & st' & Hinit & -> & _ & Hr).
  destruct r0 as [[]|e0]; [|by destruct Hr].
  destruct (init_spec _ _ _ _ _ _ Hinit) as [_ _ _ _ _ _ _ _ _ Hw].
  assert (∃ rt, (m, rt) ∈ policy_table) as [rt Hin].
  { destruct m; eexists; unfold policy_table;
      repeat first [apply list_elem_of_here | apply list_elem_of_further]. }
  destruct (Hw eq_refl m rt Hin) as (s & -> & _). eauto.
Qed.

(** X14: the stubs the constructor builds go into the dictionary of the
    class, which all transports share.  Once one construction has
    returned, that dictionary holds a stub for each method and never
    changes again, and no later construction builds a stub: its wrapped
    methods wrap the stubs found there.  A transport constructed later
    without a channel or a mutual TLS endpoint has no channel when its
    constructor returns. *)
Theorem later_construction_builds_no_stub env0 args0 p o p1 ops env args :
  reachable p →
  construct env0 args0 p = (Return o, p1) →
  let q := run ops p1 in
  let q' := (construct env args q).2 in
  cls_complete (globals p1) ∧
  cls_stubs (globals q) = cls_stubs (globals p1) ∧
  cls_stubs (globals q') = cls_stubs (globals p1) ∧
  stubs_heap (globals q') = stubs_heap (globals q) ∧
  (channel args = None → truthy_str (api_mtls_endpoint args) = false →
   ∀ o', (construct env args q).1 = Return o' →
         ∃ s, instances q' !! o' = Some s ∧ _grpc_channel s = None).
Proof.
  intros Hreach Hcons q q'.
  pose proof (reachable_ok _ Hreach) as Hok.
  assert (program_ok p1 ∧ attrs_ok p1) as [Hok1 Hattrs1].
  { replace p1 with (construct env0 args0 p).2 by (by rewrite Hcons).
    split; [by apply construct_ok|].
    by apply construct_attrs_ok, reachable_attrs_ok. }
  pose proof (construct_return_complete _ _ _ _ _ Hcons) as Hall.
  pose proof (run_cls_complete ops p1 Hok1 Hattrs1 Hall) as Hq. fold q in Hq.
  assert (cls_complete (globals q)) as Hallq.
  { intros m. rewrite Hq. apply Hall. }
  unfold q'. destruct (construct env args q) as [r q''] eqn:Hcons'.
  destruct (construct_cls_complete _ _ _ _ _ Hallq Hcons') as (Hh & Hc & Hn).
  simpl. split; [done|]. split; [done|]. split; [by rewrite Hc|].
  split; [done|]. intros Hch Hmtls o' ->. by apply Hn.
Qed.

Lemma later_construction_builds_no_stub_witness :
  let p := initial_program no_client_info in
  let p1 := (construct env_ok (args_channel (SuppliedChannel 0)) p).2 in
  let q := run [Request env_ok 0 ListJobs] p1 in
  let q' := (construct env_ok args_default q).2 in
  cls_complete (globals p1) ∧
  cls_stubs (globals q) = cls_stubs (globals p1) ∧
  cls_stubs (globals q') = cls_stubs (globals p1) ∧
  stubs_heap (globals q') = stubs_heap (globals q) ∧
  (channel args_default = None →
   truthy_str (api_mtls_endpoint args_default) = false →
   ∀ o', (construct env_ok args_default q).1 = Return o' →
         ∃ s, instances q' !! o' = Some s ∧ _grpc_channel s = None).
Proof.
  intros p p1.
  apply (later_construction_builds_no_stub env_ok
           (args_channel (SuppliedChannel 0)) p 0 p1
           [Request env_ok 0 ListJobs] env_ok args_default).
  - exists no_client_info, []. reflexivity.
  - vm_compute. reflexivity.
Defined.

(** ** Arguments that make no difference *)

(** X15: an empty [scopes] is as good as none, an empty
    [api_mtls_endpoint] is as good as none, and without an endpoint
    [client_cert_source] is never called: two constructions that agree on
    the other arguments and on the effective scopes do the same. *)
Theorem falsy_arguments_are_interchangeable env args args' p :
  host args = host args' →
  credentials args = credentials args' →
  credentials_file args = credentials_file args' →
  channel args = channel args' →
  quota_project_id args = quota_project_id args' →
  seq_or (scopes args) AUTH_SCOPES = seq_or (scopes args') AUTH_SCOPES →
  truthy_str (api_mtls_endpoint args) = false →
  truthy_str (api_mtls_endpoint args') = false →
  construct env args p = construct env args' p.
Proof.
  destruct args as [h cr cf sc ch mtls ccs q],
           args' as [h' cr' cf' sc' ch' mtls' ccs' q'].
  simpl. intros <- <- <- <- <- Hsc Hm Hm'.
  unfold construct, init, __init__.
  cbn [host credentials credentials_file scopes channel api_mtls_endpoint
       client_cert_source quota_project_id].
  by rewrite Hm, Hm', Hsc.
Qed.

Lemma falsy_arguments_are_interchangeable_witness :
  construct env_ok args_default (initial_program no_client_info)
  = construct env_ok args_falsy (initial_program no_client_info).
Proof.
  apply (falsy_arguments_are_interchangeable env_ok args_default args_falsy);
    reflexivity.
Defined.

(** ** Mutual TLS *)

Lemma seq_or_idem {A} (x : option (list A)) y :
  seq_or (seq_or x y) y = seq_or x y.
Proof.
  unfold seq_or. destruct (truthy_seq x) eqn:Hx; [by rewrite Hx|].
  by destruct (truthy_seq (Some y)).
Qed.

(** X16: with a mutual TLS endpoint and no channel, a construction
    that returns has first obtained SSL credentials, from
    [client_cert_source] when there is one and from the application
    default otherwise, and then created one channel to the endpoint, with
    the default port when it names none, passing on the credentials, the
    credentials file, the effective scopes, the quota project and those SSL
    credentials.  The instance holds that channel, and no other channel is
    created. *)
Theorem mtls_construction env args p o p' :
  channel args = None →
  truthy_str (api_mtls_endpoint args) = true →
  construct env args p = (Return o, p') →
  ∃ rest s,
    log (globals p')
    = log (globals p)
      ++ mtls_ssl_call (client_cert_source args) :: mtls_create_call args
      :: rest ∧
    Forall (λ e, is_create_channel e = false) rest ∧
    instances p' !! o = Some s ∧
    _grpc_channel s = Some (CreatedChannel (channels_created (globals p))).
Proof.
  intros Hch Hmtls Hcons.
  destruct (construct_inv _ _ _ _ _ Hcons) as (r0 & st' & Hinit & Hg & _ & Hr).
  destruct r0 as [[]|e0]; [|by destruct Hr].
  destruct Hr as (_ & [= ->] & Hi). rewrite Hi, Hg, lookup_insert_eq.
  clear Hcons Hi Hg. revert Hinit.
  destruct args as [h cr cf sc ch mtls ccs q]. simpl in Hch, Hmtls. subst ch.
  unfold mtls_create_call, mtls_ssl_call, mtls_ssl_credentials,
    with_default_port.
  init_unfold.
  cbn [host credentials credentials_file scopes channel api_mtls_endpoint
       client_cert_source quota_project_id].
  rewrite Hmtls. init_cases.
  all: try (by intros [=]).
  all: match goal with
       | Hp : CloudSchedulerTransport._prep_wrapped_messages ?st = _ |- _ =>
           destruct (prep_spec _ _ _ _ Hp) as (st2 & E & _ & d & -> & _);
           destruct (ext_log _ _ E) as (evs & L & F);
           pose proof (ext_keep _ _ E _ eq_refl) as K
       end.
  all: intros [= <-]; simpl in *.
  all: do 2 eexists.
  all: split;
    [ rewrite L, <- ?app_assoc, ?seq_or_idem; simpl; reflexivity |].
  all: split; [|split; [reflexivity|exact K]].
  all: repeat (apply Forall_cons; split; [done|]).
  all: apply F; eauto.
Qed.

Lemma mtls_construction_witness :
  let p := initial_program no_client_info in
  let p' := (construct env_ok args_mtls p).2 in
  ∃ rest s,
    log (globals p')
    = log (globals p)
      ++ mtls_ssl_call (client_cert_source args_mtls)
      :: mtls_create_call args_mtls :: rest ∧
    Forall (λ e, is_create_channel e = false) rest ∧
    instances p' !! 0 = Some s ∧
    _grpc_channel s = Some (CreatedChannel (channels_created (globals p))).
Proof.
  intros p p'. apply (mtls_construction env_ok args_mtls p 0 p').
  - reflexivity.
  - reflexivity.
  - vm_compute. reflexivity.
Defined.

(** X17: the dictionary of the class is empty exactly as long as the
    program holds no transport.  From the first construction that returns
    it holds a stub for each of the eight methods. *)
Theorem class_dictionary_empty_or_complete p :
  reachable p →
  (cls_stubs (globals p) = ∅ ∧ stubs_heap (globals p) = [] ∧ instances p = ∅) ∨
  (cls_complete (globals p) ∧ instances p ≠ ∅).
Proof.
  intros (ci & ops & ->).
  assert (∀ p,
    program_ok p → attrs_ok p →
    (cls_stubs (globals p) = ∅ ∧ stubs_heap (globals p) = [] ∧ instances p = ∅) ∨
    (cls_complete (globals p) ∧ instances p ≠ ∅) →
    (cls_stubs (globals (run ops p)) = ∅ ∧
     stubs_heap (globals (run ops p)) = [] ∧ instances (run ops p) = ∅) ∨
    (cls_complete (globals (run ops p)) ∧ instances (run ops p) ≠ ∅)) as Hrun.
  { induction ops as [|op ops IH]; intros p Hok Hattrs Hinv; simpl; [done|].
    apply IH; [by apply step_ok| |].
    { destruct op as [env args|env t m|env t]; simpl.
      - by apply construct_attrs_ok.
      - by apply call_attrs_ok; [apply property_well_behaved|].
      - by apply call_attrs_ok; [apply grpc_channel_well_behaved|]. }
    destruct Hinv as [(Hcls & Hheap & Hi)|[Hall Hi]].
    - destruct op as [env args|env t m|env t]; simpl.
      + destruct (construct env args p) as [[o|e] p'] eqn:Hcons; simpl.
        * right. split; [by eapply construct_return_complete|].
          destruct (construct_inv _ _ _ _ _ Hcons)
            as (r0 & st' & _ & _ & _ & Hr).
          destruct r0 as [[]|e0]; [|by destruct Hr].
          destruct Hr as (_ & _ & ->). apply insert_non_empty.
        * left. destruct (construct_raise_frame _ _ _ _ _ Hcons)
            as (-> & -> & ->). done.
      + left. unfold request, call. by rewrite Hi, lookup_empty.
      + left. unfold call. by rewrite Hi, lookup_empty.
    - right. split.
      + intros m. rewrite (step_cls_complete op p Hok Hattrs Hall). apply Hall.
      + destruct op as [env args|env t m|env t]; simpl.
        * destruct (construct env args p) as [r p'] eqn:Hcons; simpl.
          destruct (construct_inv _ _ _ _ _ Hcons)
            as (r0 & st' & _ & _ & _ & Hr).
          destruct r0 as [[]|e0].
          -- destruct Hr as (_ & _ & ->). apply insert_non_empty.
          -- by destruct Hr as [_ ->].
        * unfold request, call. destruct (instances p !! t); [|done].
          destruct (property env m _). simpl. apply insert_non_empty.
        * unfold call. destruct (instances p !! t); [|done].
          destruct (grpc_channel env _). simpl. apply insert_non_empty. }
  apply Hrun.
  - apply initial_program_ok.
  - intros t s Hs. simpl in Hs. by rewrite lookup_empty in Hs.
  - by left.
Qed.

Lemma class_dictionary_empty_or_complete_witness :
  let p := run [Construct env_ok args_both; Construct env_ok args_default]
             (initial_program no_client_info) in
  (cls_stubs (globals p) = ∅ ∧ stubs_heap (globals p) = [] ∧ instances p = ∅) ∨
  (cls_complete (globals p) ∧ instances p ≠ ∅).
Proof.
  intros p. apply class_dictionary_empty_or_complete.
  eexists _, _. reflexivity.
Defined.
